(** * Invoice lifecycle and recurring dispatch

    A shallow embedding of [src/invoiceDatabase.js] (the record store and
    the per-invoice state transitions), of the payment route of the HTTP
    server ([app.put('/api/invoices/:id/payment')]) and of
    [AutoSendScheduler.checkAndSend], together with the part of the
    ECMAScript [Date] arithmetic that [setMonth] relies on.
    The rest of the store (deletion, listing, statistics, expenses), the
    duplicate, auto-send and delete routes, the recipient and the file
    lookup of [AutoSendScheduler.sendInvoice] and the list of expense
    categories follow the parts the invoice lifecycle needs.

    Conventions of the embedding:
    - a timestamp field holds the time value (milliseconds since the epoch,
      UTC) that its ISO-8601 string denotes; [None] is [null] (or any falsy
      value, the code only tests truthiness);
    - the [invoices] array is a [list Invoice]; an object reference into it
      is an index, and an in-place field assignment is a list update at that
      index;
    - every clock read is an explicit argument; reads made in one
      synchronous stretch of code are taken at the same instant;
    - numbers that are amounts of money are exact rationals;
    - local time is at a constant offset from UTC (a host zone without
      daylight-saving shifts); a property that rests on it says so;
    - the invoice counter is an integer below 2^53, the range in which a
      number is incremented exactly and printed in plain decimal digits;
    - what the environment decides (whether the PDF gets written, how a
      send or a timer settles) is an argument of the function it
      influences;
    - [saveData] is not modelled: the state is the array in memory.  The
      payment route is taken as one uninterrupted handler; the scheduler
      is a step function over what the event loop delivers to it, so
      that calls of [checkAndSend] can arrive while an earlier one is
      suspended at an [await]. *)

From Stdlib Require Import ZArith QArith Lia Ascii Sorted.
From stdpp Require Import base option list strings pretty.

Local Open Scope Z_scope.

(** ** ECMAScript time values (ECMA-262, Date objects) *)

Module JSDate.

Definition msPerDay : Z := 86400000.

Definition Day (t : Z) : Z := t / msPerDay.

Definition TimeWithinDay (t : Z) : Z := t mod msPerDay.

Definition DayFromYear (y : Z) : Z :=
  365 * (y - 1970) + (y - 1969) / 4 - (y - 1901) / 100 + (y - 1601) / 400.

Definition isLeap (y : Z) : bool :=
  ((y mod 4 =? 0) && negb (y mod 100 =? 0)) || (y mod 400 =? 0).

Definition DaysInYear (y : Z) : Z := if isLeap y then 366 else 365.

(** The largest [y] with [DayFromYear y <= d]: a first estimate from the
    mean year length, corrected by at most one year. *)
Definition YearFromDay (d : Z) : Z :=
  let y := 1970 + (400 * d) / 146097 in
  if d <? DayFromYear y then y - 1
  else if DayFromYear (y + 1) <=? d then y + 1
  else y.

Definition YearFromTime (t : Z) : Z := YearFromDay (Day t).

Definition InLeapYear (t : Z) : Z :=
  if isLeap (YearFromTime t) then 1 else 0.

Definition DayWithinYear (t : Z) : Z :=
  Day t - DayFromYear (YearFromTime t).

(** Day number within the year on which month [m] (0 = January) starts;
    [leap] is 0 or 1. *)
Definition monthStart (m leap : Z) : Z :=
  match m with
  | 0 => 0
  | 1 => 31
  | 2 => 59 + leap
  | 3 => 90 + leap
  | 4 => 120 + leap
  | 5 => 151 + leap
  | 6 => 181 + leap
  | 7 => 212 + leap
  | 8 => 243 + leap
  | 9 => 273 + leap
  | 10 => 304 + leap
  | 11 => 334 + leap
  | _ => 365 + leap
  end.

Definition monthOfYearDay (dwy leap : Z) : Z :=
  if dwy <? 31 then 0
  else if dwy <? 59 + leap then 1
  else if dwy <? 90 + leap then 2
  else if dwy <? 120 + leap then 3
  else if dwy <? 151 + leap then 4
  else if dwy <? 181 + leap then 5
  else if dwy <? 212 + leap then 6
  else if dwy <? 243 + leap then 7
  else if dwy <? 273 + leap then 8
  else if dwy <? 304 + leap then 9
  else if dwy <? 334 + leap then 10
  else 11.

Definition MonthFromTime (t : Z) : Z :=
  monthOfYearDay (DayWithinYear t) (InLeapYear t).

Definition DateFromTime (t : Z) : Z :=
  DayWithinYear t - monthStart (MonthFromTime t) (InLeapYear t) + 1.

Definition DaysInMonth (y m : Z) : Z :=
  let leap := if isLeap y then 1 else 0 in
  monthStart (m + 1) leap - monthStart m leap.

(** [MakeDay]: the day number of day-of-month [dt] counted from the first
    of month [month] of [year]; [month] outside 0..11 carries into the
    year, [dt] outside the month carries into the following days. *)
Definition MakeDay (year month dt : Z) : Z :=
  let ym := year + month / 12 in
  let mn := month mod 12 in
  DayFromYear ym + monthStart mn (if isLeap ym then 1 else 0) + dt - 1.

Definition MakeDate (day time : Z) : Z := day * msPerDay + time.

Definition maxTime : Z := 8640000000000000.

(** [TimeClip]: [None] is the invalid date (NaN). *)
Definition TimeClip (t : Z) : option Z :=
  if Z.abs t <=? maxTime then Some t else None.

Section LocalZone.
(** The offset of local time from UTC in milliseconds, taken constant
    (a zone without daylight-saving shifts, such as UTC+3). *)
Variable LocalTZA : Z.

Definition LocalTime (t : Z) : Z := t + LocalTZA.
Definition UTC (t : Z) : Z := t - LocalTZA.

(** [Date.prototype.getMonth] on a valid date. *)
Definition getMonth (t : Z) : Z := MonthFromTime (LocalTime t).

Definition getDate (t : Z) : Z := DateFromTime (LocalTime t).

Definition getFullYear (t : Z) : Z := YearFromTime (LocalTime t).

(** [Date.prototype.setMonth(month)] on a valid date: the new time value
    of the object, [None] when it leaves the representable range. *)
Definition setMonth (t month : Z) : option Z :=
  let lt := LocalTime t in
  let newDate :=
    MakeDate (MakeDay (YearFromTime lt) month (DateFromTime lt))
             (TimeWithinDay lt) in
  TimeClip (UTC newDate).

(** [d.setMonth(d.getMonth() + 1)], the idiom both callers use. *)
Definition plusOneMonth (t : Z) : option Z := setMonth t (getMonth t + 1).
End LocalZone.

(** The UTC time value of a civil date and a time of day in milliseconds. *)
Definition civil (y m d ms : Z) : Z := MakeDate (MakeDay y m d) ms.

End JSDate.

Import JSDate.

(** ** Records of the store *)

Record InvoiceItem := mkItem {
  item_name : string;
  item_unit : string;
  item_quantity : Q;
  item_price : Q;
  item_amount : Q
}.

Record Discount := mkDiscount {
  discount_value : Q;
  discount_type : string
}.

Record PaymentInfo := mkPaymentInfo {
  cardNumber : string;
  sbpPhone : string;
  sbpBank : string
}.

Record Expense := mkExpense {
  expense_id : string;
  expense_date : Z;
  expense_amount : Q;
  expense_description : string;
  expense_category : string;
  expense_createdAt : Z
}.

Record Invoice := mkInvoice {
  id : string;
  invoiceNumber : string;
  filename : string;
  amount : Q;
  items : list InvoiceItem;
  discount : option Discount;
  client : option string;
  clientPhone : string;
  isRecurring : bool;
  payment : option PaymentInfo;
  createdAt : Z;
  paid : bool;
  paidAt : option Z;
  yandexPath : option string;
  publicUrl : option string;
  nextSendDate : option Z;
  autoSendEnabled : bool;
  lastSentAt : option Z;
  expenses : list Expense
}.

(** The argument object of [addInvoice].  A field that may be missing is an
    option.  The last three fields are not read by [addInvoice]; they stand
    for what a caller could put under those keys. *)
Record InvoiceData := mkInvoiceData {
  d_invoiceNumber : string;
  d_filename : string;
  d_amount : Q;
  d_items : option (list InvoiceItem);
  d_discount : option Discount;
  d_client : option string;
  d_clientPhone : option string;
  d_isRecurring : bool;
  d_payment : option PaymentInfo;
  d_createdAt : option Z;
  d_yandexPath : option string;
  d_publicUrl : option string;
  d_nextSendDate : option Z;
  d_autoSendEnabled : bool;
  d_expenses : option (list Expense);
  d_paid : bool;
  d_paidAt : option Z;
  d_lastSentAt : option Z
}.

(** Field assignments on an invoice object. *)
Definition set_payment (p : bool) (at_ : option Z) (inv : Invoice) : Invoice :=
  mkInvoice (id inv) (invoiceNumber inv) (filename inv) (amount inv)
    (items inv) (discount inv) (client inv) (clientPhone inv)
    (isRecurring inv) (payment inv) (createdAt inv) p at_
    (yandexPath inv) (publicUrl inv) (nextSendDate inv)
    (autoSendEnabled inv) (lastSentAt inv) (expenses inv).

Definition set_nextSendDate (d : option Z) (inv : Invoice) : Invoice :=
  mkInvoice (id inv) (invoiceNumber inv) (filename inv) (amount inv)
    (items inv) (discount inv) (client inv) (clientPhone inv)
    (isRecurring inv) (payment inv) (createdAt inv) (paid inv) (paidAt inv)
    (yandexPath inv) (publicUrl inv) d
    (autoSendEnabled inv) (lastSentAt inv) (expenses inv).

Definition set_autoSendEnabled (b : bool) (inv : Invoice) : Invoice :=
  mkInvoice (id inv) (invoiceNumber inv) (filename inv) (amount inv)
    (items inv) (discount inv) (client inv) (clientPhone inv)
    (isRecurring inv) (payment inv) (createdAt inv) (paid inv) (paidAt inv)
    (yandexPath inv) (publicUrl inv) (nextSendDate inv)
    b (lastSentAt inv) (expenses inv).

Definition set_lastSentAt (d : option Z) (inv : Invoice) : Invoice :=
  mkInvoice (id inv) (invoiceNumber inv) (filename inv) (amount inv)
    (items inv) (discount inv) (client inv) (clientPhone inv)
    (isRecurring inv) (payment inv) (createdAt inv) (paid inv) (paidAt inv)
    (yandexPath inv) (publicUrl inv) (nextSendDate inv)
    (autoSendEnabled inv) d (expenses inv).

(** What a statement or call completes with: a value or a thrown error. *)
Inductive Completion (A : Type) :=
  | Normal (a : A)
  | Throw (msg : string).
Arguments Normal {A} a.
Arguments Throw {A} msg.

(** [s || null] on a string that may be missing: the empty string is falsy. *)
Definition truthy_string (s : option string) : option string :=
  match s with
  | Some s' => if decide (s' = "") then None else Some s'
  | None => None
  end.

(** ** InvoiceDatabase *)

Module InvoiceDatabase.

(** [this.invoices]. *)
Abbreviation DB := (list Invoice).

(** [addInvoice(invoiceData)]; [now] is the clock of [Date.now()] and
    [new Date()]. *)
Definition newInvoice (now : Z) (data : InvoiceData) : Invoice :=
  {| id := pretty now;
     invoiceNumber := d_invoiceNumber data;
     filename := d_filename data;
     amount := d_amount data;
     items := default [] (d_items data);
     discount := d_discount data;
     client := truthy_string (d_client data);
     clientPhone := default "" (d_clientPhone data);
     isRecurring := d_isRecurring data;
     payment := d_payment data;
     createdAt := default now (d_createdAt data);
     paid := false;
     paidAt := None;
     yandexPath := truthy_string (d_yandexPath data);
     publicUrl := truthy_string (d_publicUrl data);
     nextSendDate := d_nextSendDate data;
     autoSendEnabled := d_autoSendEnabled data;
     lastSentAt := None;
     expenses := default [] (d_expenses data) |}.

Definition addInvoice (now : Z) (data : InvoiceData) (db : DB) : Invoice * DB :=
  let invoice := newInvoice now data in
  (invoice, db ++ [invoice]).

(** [this.invoices.find(inv => inv.id === id)]: the first match, with its
    position, which is the reference the callers then assign through. *)
Definition getInvoiceById (i : string) (db : DB) : option (nat * Invoice) :=
  list_find (λ inv, id inv = i) db.

Definition markAsPaid (now : Z) (i : string) (db : DB) : option Invoice * DB :=
  match getInvoiceById i db with
  | Some (k, invoice) =>
      let invoice' := set_payment true (Some now) invoice in
      (Some invoice', <[k := invoice']> db)
  | None => (None, db)
  end.

Definition markAsUnpaid (i : string) (db : DB) : option Invoice * DB :=
  match getInvoiceById i db with
  | Some (k, invoice) =>
      let invoice' := set_payment false None invoice in
      (Some invoice', <[k := invoice']> db)
  | None => (None, db)
  end.

Definition updatePaymentStatus (now : Z) (i : string) (p : bool) (db : DB)
  : option Invoice * DB :=
  if p then markAsPaid now i db else markAsUnpaid i db.

(** The predicate of the filter in [getInvoicesForAutoSend]. *)
Definition dueAt (now : Z) (inv : Invoice) : bool :=
  match nextSendDate inv with
  | Some sendDate =>
      if negb (autoSendEnabled inv) then false else sendDate <=? now
  | None => false
  end.

(** [getInvoicesForAutoSend()]: the result and the store after the call. *)
Definition getInvoicesForAutoSend (now : Z) (db : DB) : list Invoice * DB :=
  (List.filter (dueAt now) db, db).

(** [setAutoSend(id, enabled, nextSendDate = null)]. *)
Definition setAutoSend (i : string) (enabled : bool) (next : option Z) (db : DB)
  : option Invoice * DB :=
  match getInvoiceById i db with
  | Some (k, invoice) =>
      let invoice1 := set_autoSendEnabled enabled invoice in
      let invoice2 :=
        match next with
        | Some d => set_nextSendDate (Some d) invoice1
        | None => invoice1
        end in
      (Some invoice2, <[k := invoice2]> db)
  | None => (None, db)
  end.

Section LocalZone.
Variable LocalTZA : Z.

(** [updateNextSendDate(id)].  [toISOString] throws a [RangeError] on an
    invalid date, before either field is assigned. *)
Definition updateNextSendDate (now : Z) (i : string) (db : DB)
  : Completion (option Invoice) * DB :=
  match getInvoiceById i db with
  | Some (k, invoice) =>
      match nextSendDate invoice with
      | Some currentDate =>
          match plusOneMonth LocalTZA currentDate with
          | Some shifted =>
              let invoice' :=
                set_lastSentAt (Some now)
                  (set_nextSendDate (Some shifted) invoice) in
              (Normal (Some invoice'), <[k := invoice']> db)
          | None => (Throw "RangeError: Invalid time value", db)
          end
      | None => (Normal None, db)
      end
  | None => (Normal None, db)
  end.
End LocalZone.

End InvoiceDatabase.

Import InvoiceDatabase.

(** ** The payment route of the HTTP server *)

Module Server.

Fixpoint zeros (k : nat) (s : string) : string :=
  match k with
  | O => s
  | S k' => String "0"%char (zeros k' s)
  end.

(** [s.padStart(n, '0')]. *)
Definition padStart (n : nat) (s : string) : string :=
  zeros (n - String.length s) s.

(** [invoiceCounter.getNextInvoiceNumber()] over the stored counter, for
    counters below 2^53, where [+= 1] on a number is exact and [toString]
    writes plain decimal digits. *)
Definition getNextInvoiceNumber (current : Z) : string * Z :=
  (padStart 3 (pretty (current + 1)), current + 1).

(** The year of [toISOString]: four digits, or a sign and six digits. *)
Definition isoYear (y : Z) : string :=
  if (0 <=? y) && (y <=? 9999) then padStart 4 (pretty y)
  else if y <? 0 then "-" +:+ padStart 6 (pretty (- y))
  else "+" +:+ padStart 6 (pretty y).

(** [new Date().toISOString().split('T')[0]]. *)
Definition isoDatePart (t : Z) : string :=
  isoYear (YearFromTime t) +:+ "-" +:+
  padStart 2 (pretty (MonthFromTime t + 1)) +:+ "-" +:+
  padStart 2 (pretty (DateFromTime t)).

(** The total of the route: the sum of the line amounts, less the discount. *)
Definition totalAmount (its : list InvoiceItem) (disc : option Discount) : Q :=
  let total := fold_left (λ sum item, sum + item_amount item)%Q its 0%Q in
  match disc with
  | Some d =>
      if decide (discount_type d = "percent")
      then (total - total * (discount_value d / (100 # 1)))%Q
      else if decide (discount_type d = "fixed")
      then (total - discount_value d)%Q
      else total
  | None => total
  end.

(** The module-level state the route works on: [db] and the counter file. *)
Record State := mkState {
  st_db : DB;
  st_counter : Z
}.

(** The JSON body of a successful answer ([success: true]). *)
Record PaymentBody := mkBody {
  body_invoice : option Invoice;
  body_newInvoice : option Invoice;
  body_message : option string;
  body_error : option string
}.

Inductive Response :=
  | Json (status : Z) (body : PaymentBody)
  | JsonError (status : Z) (error : string).

Section Host.
Variable LocalTZA : Z.
(** [sanitizeFilename] works on UTF-16 code units and Unicode classes;
    it is kept abstract. *)
Variable sanitizeFilename : string → string.

(** The body of the inner [try] of the route.  [invoice] is the object
    the route holds, which nothing assigns to before the last read here;
    [now] is the clock before [await createInvoice], [now'] the clock
    after it; [pdfOk] tells whether [createInvoice] resolved. *)
Definition duplicateOnPayment (now now' : Z) (pdfOk : bool)
    (invoice : Invoice) (st : State) : Completion Response * State :=
  let '(newInvoiceNumber, counter') := getNextInvoiceNumber (st_counter st) in
  let st1 := mkState (st_db st) counter' in
  let total := totalAmount (items invoice) (discount invoice) in
  match client invoice with
  | None => (Throw "TypeError: Cannot read properties of null", st1)
  | Some name =>
      let clientNameClean := sanitizeFilename name in
      let dateStr := isoDatePart now in
      let file :=
        "Счет_" +:+ newInvoiceNumber +:+ "_" +:+ clientNameClean +:+ "_"
        +:+ dateStr +:+ ".pdf" in
      if negb pdfOk then (Throw "createInvoice failed", st1)
      else
        match plusOneMonth LocalTZA now' with
        | None => (Throw "RangeError: Invalid time value", st1)
        | Some next =>
            let '(newInv, db1) :=
              addInvoice now'
                {| d_invoiceNumber := newInvoiceNumber;
                   d_filename := file;
                   d_amount := total;
                   d_items := Some (items invoice);
                   d_discount := discount invoice;
                   d_client := client invoice;
                   d_clientPhone := Some (clientPhone invoice);
                   d_isRecurring := isRecurring invoice;
                   d_payment := payment invoice;
                   d_createdAt := None;
                   d_yandexPath := None;
                   d_publicUrl := None;
                   d_nextSendDate := Some next;
                   d_autoSendEnabled := true;
                   d_expenses := None;
                   d_paid := false;
                   d_paidAt := None;
                   d_lastSentAt := None |} (st_db st1) in
            let db2 :=
              if autoSendEnabled invoice
              then (setAutoSend (id invoice) false None db1).2
              else db1 in
            (Normal (Json 200
               {| body_invoice := snd <$> getInvoiceById (id invoice) db2;
                  body_newInvoice := Some newInv;
                  body_message :=
                    Some ("Счет оплачен! Автоматически создан новый счет №"
                          +:+ newInvoiceNumber +:+ " на следующий месяц");
                  body_error := None |}),
             mkState db2 counter')
        end
  end.

(** [app.put('/api/invoices/:id/payment')] with [req.params.id = i] and
    [req.body.paid] of truthiness [p]. *)
Definition putPayment (now now' : Z) (pdfOk : bool) (i : string) (p : bool)
    (st : State) : Response * State :=
  match getInvoiceById i (st_db st) with
  | None => (JsonError 404 "Счет не найден", st)
  | Some (k, oldInvoice) =>
      let wasUnpaid := negb (paid oldInvoice) in
      let '(updated, db1) := updatePaymentStatus now i p (st_db st) in
      let st1 := mkState db1 (st_counter st) in
      match updated with
      | None => (JsonError 404 "Счет не найден", st1)
      | Some invoice =>
          if p && wasUnpaid then
            match duplicateOnPayment now now' pdfOk invoice st1 with
            | (Normal r, st2) => (r, st2)
            | (Throw _, st2) =>
                (Json 200
                   {| body_invoice := st_db st2 !! k;
                      body_newInvoice := None;
                      body_message := None;
                      body_error :=
                        Some "Счет оплачен, но не удалось создать новый автоматически" |},
                 st2)
            end
          else
            (Json 200
               {| body_invoice := Some invoice;
                  body_newInvoice := None;
                  body_message := None;
                  body_error := None |},
             st1)
      end
  end.
End Host.

End Server.

(** ** AutoSendScheduler *)

Module AutoSendScheduler.

(** How an awaited promise settles. *)
Inductive Settled :=
  | Fulfilled
  | Rejected (msg : string).

(** What the scheduler writes to the console, in order. *)
Inductive Event :=
  | Skipped
  | NothingDue
  | Sending (k : nat)
  | Sent (k : nat)
  | SendFailed (k : nat) (msg : string)
  | Sleeping (ms : Z)
  | AllProcessed
  | PassFailed (msg : string).

(** A suspended execution of [checkAndSend]: at [await this.sendInvoice] for
    the invoice referenced by [k], or at [await this.sleep] before it;
    [rest] are the references of the batch still to come. *)
Inductive Frame :=
  | AwaitSend (k : nat) (rest : list nat)
  | AwaitSleep (k : nat) (rest : list nat).

(** The scheduler object: its own [InvoiceDatabase] ([this.db]), the
    flag [this.isProcessing], and, for the semantics, the executions of
    [checkAndSend] that are suspended and the console output so far. *)
Record Scheduler := mkScheduler {
  db : DB;
  isProcessing : bool;
  passes : list Frame;
  log : list Event
}.

Definition setDb (d : DB) (s : Scheduler) : Scheduler :=
  mkScheduler d (isProcessing s) (passes s) (log s).

Definition setProcessing (b : bool) (s : Scheduler) : Scheduler :=
  mkScheduler (db s) b (passes s) (log s).

Definition setPasses (ps : list Frame) (s : Scheduler) : Scheduler :=
  mkScheduler (db s) (isProcessing s) ps (log s).

Definition addLog (e : Event) (s : Scheduler) : Scheduler :=
  mkScheduler (db s) (isProcessing s) (passes s) (log s ++ [e]).

Definition sendDelay : Z := 10 * 60 * 1000.

(** The positions, from [k] on, of the elements that satisfy [P]. *)
Fixpoint refsFrom (P : Invoice → bool) (k : nat) (l : list Invoice) : list nat :=
  match l with
  | [] => []
  | x :: l' => if P x then k :: refsFrom P (S k) l' else refsFrom P (S k) l'
  end.

(** The array [getInvoicesForAutoSend] returns holds the objects of the
    store themselves; the batch is kept as their positions. *)
Definition dueRefs (now : Z) (d : DB) : list nat := refsFrom (dueAt now) 0 d.

(** [sendInvoice(invoice)]: the check of the phone number, then the lookup
    of the PDF and the delivery, which settle as the environment decides
    ([ext]). *)
Definition sendInvoice (invoice : Invoice) (ext : Settled) : Settled :=
  if decide (clientPhone invoice = "")
  then Rejected "У клиента не указан номер телефона"
  else ext.

Section LocalZone.
Variable LocalTZA : Z.

(** A call of [checkAndSend], up to its first [await] or its return. *)
Definition invoke (now : Z) (s : Scheduler) : Scheduler :=
  if isProcessing s then addLog Skipped s
  else
    let s1 := setProcessing true s in
    match dueRefs now (db s1) with
    | [] => setProcessing false (addLog NothingDue s1)
    | k :: rest =>
        setPasses (passes s1 ++ [AwaitSend k rest]) (addLog (Sending k) s1)
    end.

(** The inner [try]/[catch] once [sendInvoice] has settled. *)
Definition afterSend (now : Z) (k : nat) (r : Settled) (s : Scheduler)
  : Scheduler :=
  match db s !! k with
  | Some invoice =>
      match sendInvoice invoice r with
      | Fulfilled =>
          match updateNextSendDate LocalTZA now (id invoice) (db s) with
          | (Normal _, d') => addLog (Sent k) (setDb d' s)
          | (Throw msg, d') => addLog (SendFailed k msg) (setDb d' s)
          end
      | Rejected msg => addLog (SendFailed k msg) s
      end
  | None => s
  end.

(** The execution [j] of [checkAndSend] resumes: the promise it awaits
    has settled with [r]; it runs to its next [await] or to its end. *)
Definition settle (j : nat) (now : Z) (r : Settled) (s : Scheduler)
  : Scheduler :=
  match passes s !! j with
  | None => s
  | Some (AwaitSend k rest) =>
      let s1 := afterSend now k r s in
      match rest with
      | k' :: rest' =>
          setPasses (<[j := AwaitSleep k' rest']> (passes s1))
            (addLog (Sleeping sendDelay) s1)
      | [] =>
          setProcessing false
            (setPasses (delete j (passes s1)) (addLog AllProcessed s1))
      end
  | Some (AwaitSleep k rest) =>
      match r with
      | Fulfilled =>
          setPasses (<[j := AwaitSend k rest]> (passes s))
            (addLog (Sending k) s)
      | Rejected msg =>
          setProcessing false
            (setPasses (delete j (passes s)) (addLog (PassFailed msg) s))
      end
  end.

(** What the event loop can deliver to the scheduler. *)
Inductive Input :=
  | Invoke (now : Z)
  | Settle (j : nat) (now : Z) (r : Settled).

Definition step (s : Scheduler) (i : Input) : Scheduler :=
  match i with
  | Invoke now => invoke now s
  | Settle j now r => settle j now r s
  end.

Definition run (s : Scheduler) (ins : list Input) : Scheduler :=
  fold_left step ins s.

(** The inputs of one pass that nothing interrupts: for each invoice of
    the batch the time and the way its send settles, and the timer of
    the pause between two invoices. *)
Fixpoint passInputs (os : list (Z * Settled)) : list Input :=
  match os with
  | [] => []
  | (t, r) :: os' =>
      Settle 0 t r ::
      match os' with
      | [] => []
      | _ :: _ => Settle 0 t Fulfilled :: passInputs os'
      end
  end.

(** What the store [d] holds under the reference [k] once the send of
    the invoice [inv], which was under [k], settled with [r] at [t]: the
    record as it was after a failure; after a success the record with
    the date [setMonth] computed and [lastSentAt] the time of the send,
    or the record as it was when that date is out of range and
    [toISOString] threw. *)
Definition sendOutcome (d : DB) (k : nat) (inv : Invoice) (t : Z)
    (r : Settled) : Prop :=
  match sendInvoice inv r with
  | Rejected _ => d !! k = Some inv
  | Fulfilled =>
      ∃ cur, nextSendDate inv = Some cur ∧
        d !! k = Some (match plusOneMonth LocalTZA cur with
                       | Some shifted =>
                           set_lastSentAt (Some t)
                             (set_nextSendDate (Some shifted) inv)
                       | None => inv
                       end)
  end.
End LocalZone.

Definition init (d : DB) : Scheduler := mkScheduler d false [] [].


Definition isSleeping (e : Event) : bool :=
  match e with Sleeping _ => true | _ => false end.

Definition sendingRef (e : Event) : option nat :=
  match e with Sending k => Some k | _ => None end.

End AutoSendScheduler.

(** ** The advancement in the words of the specification

    One calendar month after the current value, on the same day of the
    month, clamped to the last day of the target month when that day does
    not exist there. *)
Definition spec_plusOneMonthClamped (LocalTZA t : Z) : Z :=
  let lt := LocalTime LocalTZA t in
  let y1 := YearFromTime lt + (MonthFromTime lt + 1) / 12 in
  let m1 := (MonthFromTime lt + 1) mod 12 in
  let d1 := Z.min (DateFromTime lt) (DaysInMonth y1 m1) in
  UTC LocalTZA (MakeDate (MakeDay y1 m1 d1) (TimeWithinDay lt)).

(** The payment invariant of the data model. *)
Definition paymentConsistent (inv : Invoice) : Prop :=
  paid inv = true ↔ paidAt inv ≠ None.

(** ** Sample data *)

(** An invoice with the given identity, phone, payment status and
    auto-send fields; the other fields are fixed. *)
Definition sampleInvoice (i phone : string) (p : bool) (pa : option Z)
    (auto : bool) (next : option Z) : Invoice :=
  {| id := i; invoiceNumber := "001"; filename := "invoice_001_.pdf";
     amount := 0%Q; items := []; discount := None; client := Some "Client";
     clientPhone := phone; isRecurring := false; payment := None;
     createdAt := 0; paid := p; paidAt := pa; yandexPath := None;
     publicUrl := None; nextSendDate := next; autoSendEnabled := auto;
     lastSentAt := None; expenses := [] |}.

(** The argument [data] with other values under the keys [paid], [paidAt]
    and [lastSentAt]. *)
Definition withPaymentKeys (p : bool) (pa ls : option Z) (data : InvoiceData)
  : InvoiceData :=
  mkInvoiceData (d_invoiceNumber data) (d_filename data) (d_amount data)
    (d_items data) (d_discount data) (d_client data) (d_clientPhone data)
    (d_isRecurring data) (d_payment data) (d_createdAt data)
    (d_yandexPath data) (d_publicUrl data) (d_nextSendDate data)
    (d_autoSendEnabled data) (d_expenses data) p pa ls.

Import Server AutoSendScheduler.

(** * The rest of the cited files *)

(** ** InvoiceDatabase: deletion, listing, statistics, expenses *)

Definition set_expenses (es : list Expense) (inv : Invoice) : Invoice :=
  mkInvoice (id inv) (invoiceNumber inv) (filename inv) (amount inv)
    (items inv) (discount inv) (client inv) (clientPhone inv)
    (isRecurring inv) (payment inv) (createdAt inv) (paid inv) (paidAt inv)
    (yandexPath inv) (publicUrl inv) (nextSendDate inv)
    (autoSendEnabled inv) (lastSentAt inv) es.

(** [deleteInvoice(id)]: [findIndex] with the predicate of
    [getInvoiceById], then [splice(index, 1)]. *)
Definition deleteInvoice (i : string) (db : DB) : option Invoice * DB :=
  match getInvoiceById i db with
  | Some (k, deleted) => (Some deleted, delete k db)
  | None => (None, db)
  end.

(** Where [Array.prototype.sort], which is stable, puts [x] when [x] stood
    before every element of the sorted [l]: the comparator
    [new Date(b.createdAt) - new Date(a.createdAt)] puts the later
    [createdAt] first. *)
Fixpoint insertNewestFirst (x : Invoice) (l : list Invoice) : list Invoice :=
  match l with
  | [] => [x]
  | y :: l' =>
      if createdAt x <? createdAt y then y :: insertNewestFirst x l'
      else x :: y :: l'
  end.

Definition sortNewestFirst (l : list Invoice) : list Invoice :=
  foldr insertNewestFirst [] l.

(** [getAllInvoices()]: [this.invoices.sort(...)] sorts the array of the
    store in place and returns that same array. *)
Definition getAllInvoices (db : DB) : list Invoice * DB :=
  let sorted := sortNewestFirst db in (sorted, sorted).

Record Statistics := mkStatistics {
  stat_total : nat;
  stat_paid : nat;
  stat_unpaid : Z;
  stat_totalAmount : Q;
  stat_paidAmount : Q;
  stat_unpaidAmount : Q
}.

Definition sumAmounts (l : list Invoice) : Q :=
  fold_left (λ sum inv, sum + amount inv)%Q l 0%Q.

(** [getStatistics()]. *)
Definition getStatistics (db : DB) : Statistics :=
  let total := length db in
  let paidN := length (List.filter paid db) in
  let totalAmount := sumAmounts db in
  let paidAmount := sumAmounts (List.filter paid db) in
  {| stat_total := total;
     stat_paid := paidN;
     stat_unpaid := Z.of_nat total - Z.of_nat paidN;
     stat_totalAmount := totalAmount;
     stat_paidAmount := paidAmount;
     stat_unpaidAmount := (totalAmount - paidAmount)%Q |}.

(** The argument object of [addExpense]. *)
Record ExpenseData := mkExpenseData {
  e_date : option Z;
  e_amount : Q;
  e_description : option string;
  e_category : option string
}.

Definition newExpense (now : Z) (data : ExpenseData) : Expense :=
  {| expense_id := pretty now;
     expense_date := default now (e_date data);
     expense_amount := e_amount data;
     expense_description := default "" (e_description data);
     expense_category := default "Прочее" (truthy_string (e_category data));
     expense_createdAt := now |}.

(** [addExpense(invoiceId, expenseData)]. *)
Definition addExpense (now : Z) (invoiceId : string) (data : ExpenseData)
    (db : DB) : option Expense * DB :=
  match getInvoiceById invoiceId db with
  | Some (k, invoice) =>
      let expense := newExpense now data in
      (Some expense,
       <[k := set_expenses (expenses invoice ++ [expense]) invoice]> db)
  | None => (None, db)
  end.

(** [deleteExpense(invoiceId, expenseId)]. *)
Definition deleteExpense (invoiceId expenseId : string) (db : DB)
  : option Expense * DB :=
  match getInvoiceById invoiceId db with
  | Some (k, invoice) =>
      match list_find (λ exp, expense_id exp = expenseId) (expenses invoice) with
      | Some (index, deleted) =>
          (Some deleted,
           <[k := set_expenses (delete index (expenses invoice)) invoice]> db)
      | None => (None, db)
      end
  | None => (None, db)
  end.

(** [getExpenses(invoiceId)]. *)
Definition getExpenses (invoiceId : string) (db : DB) : list Expense :=
  match getInvoiceById invoiceId db with
  | Some (_, invoice) => expenses invoice
  | None => []
  end.

(** [getTotalExpenses(invoiceId)]. *)
Definition getTotalExpenses (invoiceId : string) (db : DB) : Q :=
  fold_left (λ sum exp, sum + expense_amount exp)%Q (getExpenses invoiceId db) 0%Q.

(** ** AutoSendScheduler.sendInvoice: the recipient and the PDF file *)

(** [\d] of a regular expression without the [u] flag: an ASCII digit. *)
Definition isDigit (c : ascii) : bool :=
  (48 <=? nat_of_ascii c)%nat && (nat_of_ascii c <=? 57)%nat.

(** [s.replace(/\D/g, '')]. *)
Fixpoint digitsOf (s : string) : string :=
  match s with
  | EmptyString => EmptyString
  | String c r => if isDigit c then String c (digitsOf r) else digitsOf r
  end.

(** [s.startsWith(c)] for a single character [c]. *)
Definition startsWithChar (c : ascii) (s : string) : bool :=
  match s with
  | String a _ => Ascii.eqb a c
  | EmptyString => false
  end.

(** ['7' + phone.substring(1)]. *)
Definition replaceFirstBy7 (s : string) : string :=
  match s with
  | String _ r => String "7" r
  | EmptyString => String "7" EmptyString
  end.

(** The normalisation of the phone number in [sendInvoice]. *)
Definition normalizePhone (clientPhone : string) : string :=
  let phone := digitsOf clientPhone in
  let phone := if startsWithChar "8" phone then replaceFirstBy7 phone else phone in
  if negb (startsWithChar "7" phone) then String "7" phone else phone.

(** [s] without the prefix [p], when [s] starts with [p]. *)
Fixpoint stripPrefix (p s : string) : option string :=
  match p, s with
  | EmptyString, _ => Some s
  | String a p', String b s' => if Ascii.eqb a b then stripPrefix p' s' else None
  | String _ _, EmptyString => None
  end.

(** The longest run of digits at the start of [s], and what follows it. *)
Fixpoint spanDigits (s : string) : string * string :=
  match s with
  | String c r =>
      if isDigit c then let '(d, t) := spanDigits r in (String c d, t)
      else (EmptyString, s)
  | EmptyString => (EmptyString, EmptyString)
  end.

(** Group 1 of [f.match(/^prefix(\d+)_/)], [None] when there is no match:
    the digits are followed by an underscore, which is no digit, so the
    group is the longest run of digits. *)
Definition capturedNumber (prefix f : string) : option string :=
  match stripPrefix prefix f with
  | Some rest =>
      match spanDigits rest with
      | (String c d, t) => if startsWithChar "_" t then Some (String c d) else None
      | (EmptyString, _) => None
      end
  | None => None
  end.

(** [f.endsWith(suffix)]. *)
Fixpoint endsWith (f suffix : string) : bool :=
  String.eqb f suffix ||
  match f with
  | String _ r => endsWith r suffix
  | EmptyString => false
  end.

(** The predicate of [files.find] in [sendInvoice], for the invoice
    number [num] ([String(invoice.invoiceNumber)]). *)
Definition isInvoiceFile (num f : string) : bool :=
  if negb (endsWith f ".pdf") then false
  else if bool_decide (capturedNumber "Счет_" f = Some num) then true
  else if bool_decide (capturedNumber "invoice_" f = Some num) then true
  else false.

(** [files.find(...)] over the listing of the directory. *)
Definition findPdf (num : string) (files : list string) : option string :=
  List.find (isInvoiceFile num) files.

(** ** Other routes of the server *)

Section Routes.
Variable sanitizeFilename : string → string.

(** [app.post('/api/invoices/:id/duplicate')]; [now] is the clock before
    [await createInvoice], [now'] the clock after it; [pdfOk] tells
    whether [createInvoice] resolved.  A throw ends in the [catch] of the
    route, which answers 500. *)
Definition postDuplicate (now now' : Z) (pdfOk : bool) (i : string)
    (st : State) : Response * State :=
  match getInvoiceById i (st_db st) with
  | None => (JsonError 404 "Счет не найден", st)
  | Some (_, originalInvoice) =>
      let '(newInvoiceNumber, counter') := getNextInvoiceNumber (st_counter st) in
      let st1 := mkState (st_db st) counter' in
      let total := totalAmount (items originalInvoice) (discount originalInvoice) in
      match client originalInvoice with
      | None => (JsonError 500 "TypeError: Cannot read properties of null", st1)
      | Some name =>
          let clientNameClean := sanitizeFilename name in
          let dateStr := isoDatePart now in
          let file :=
            "Счет_" +:+ newInvoiceNumber +:+ "_" +:+ clientNameClean +:+ "_"
            +:+ dateStr +:+ ".pdf" in
          if negb pdfOk then (JsonError 500 "createInvoice failed", st1)
          else
            let '(newInv, db1) :=
              addInvoice now'
                {| d_invoiceNumber := newInvoiceNumber;
                   d_filename := file;
                   d_amount := total;
                   d_items := Some (items originalInvoice);
                   d_discount := discount originalInvoice;
                   d_client := client originalInvoice;
                   d_clientPhone := Some (clientPhone originalInvoice);
                   d_isRecurring := isRecurring originalInvoice;
                   d_payment := payment originalInvoice;
                   d_createdAt := None;
                   d_yandexPath := None;
                   d_publicUrl := None;
                   d_nextSendDate := None;
                   d_autoSendEnabled := false;
                   d_expenses := None;
                   d_paid := false;
                   d_paidAt := None;
                   d_lastSentAt := None |} (st_db st1) in
            (Json 200
               {| body_invoice := Some newInv;
                  body_newInvoice := None;
                  body_message :=
                    Some ("Создан новый счет №" +:+ newInvoiceNumber
                          +:+ " на основе счета №"
                          +:+ invoiceNumber originalInvoice);
                  body_error := None |},
             mkState db1 counter')
      end
  end.
End Routes.

(** [app.post('/api/invoices/:id/auto-send')] with [req.body.enabled] of
    truthiness [enabled] and [req.body.nextSendDate] [next]. *)
Definition postAutoSend (i : string) (enabled : bool) (next : option Z)
    (st : State) : Response * State :=
  match setAutoSend i enabled next (st_db st) with
  | (Some invoice, db') =>
      (Json 200 (mkBody (Some invoice) None None None), mkState db' (st_counter st))
  | (None, db') => (JsonError 404 "Счет не найден", mkState db' (st_counter st))
  end.

(** [app.delete('/api/invoices/:id')]; [fileOk] tells whether the removal
    of the PDF file went through without a throw, which the [catch] of the
    route turns into a 500 after the record has left the store. *)
Definition deleteInvoiceRoute (fileOk : bool) (i : string) (st : State)
  : Response * State :=
  match deleteInvoice i (st_db st) with
  | (Some _, db') =>
      (if fileOk then Json 200 (mkBody None None (Some "Счет удален") None)
       else JsonError 500 "unlink failed",
       mkState db' (st_counter st))
  | (None, db') => (JsonError 404 "Счет не найден", mkState db' (st_counter st))
  end.

(** ** What a run of the scheduler may change in a record *)

(** [b] is [a] up to [nextSendDate] and [lastSentAt], and its
    [nextSendDate] is set when that of [a] is, and is no earlier. *)
Definition scheduleOnly (a b : Invoice) : Prop :=
  set_lastSentAt (lastSentAt a) (set_nextSendDate (nextSendDate a) b) = a ∧
  match nextSendDate a, nextSendDate b with
  | Some d, Some d' => d <= d'
  | None, None => True
  | _, _ => False
  end.

(** ** ExpenseCategories *)

Record Category := mkCategory {
  cat_id : string;
  cat_name : string;
  cat_description : string;
  cat_createdAt : Z
}.

(** The argument object of [addCategory]. *)
Record CategoryData := mkCategoryData {
  c_name : option string;
  c_description : option string
}.

Section Categories.
(** [String.prototype.toLowerCase] and [String.prototype.trim] follow the
    Unicode tables; they are kept abstract. *)
Variable toLowerCase : string → string.
Variable trim : string → string.

(** [getCategoryById(id)]. *)
Definition getCategoryById (i : string) (cats : list Category)
  : option (nat * Category) :=
  list_find (λ cat, cat_id cat = i) cats.

(** [addCategory(categoryData)]: the name is compared as it was given and
    stored trimmed. *)
Definition addCategory (now : Z) (data : CategoryData) (cats : list Category)
  : Completion Category * list Category :=
  match truthy_string (c_name data) with
  | None => (Throw "Название категории обязательно", cats)
  | Some name =>
      match list_find (λ cat, toLowerCase (cat_name cat) = toLowerCase name) cats with
      | Some _ => (Throw "Категория с таким названием уже существует", cats)
      | None =>
          let category :=
            {| cat_id := pretty now;
               cat_name := trim name;
               cat_description := default "" (c_description data);
               cat_createdAt := now |} in
          (Normal category, cats ++ [category])
      end
  end.

(** [deleteCategory(id)]. *)
Definition deleteCategory (i : string) (cats : list Category)
  : Completion Category * list Category :=
  match list_find (λ cat, cat_id cat = i) cats with
  | Some (index, deleted) => (Normal deleted, delete index cats)
  | None => (Throw "Категория не найдена", cats)
  end.

(** No two categories have the same name up to case. *)
Definition distinctNames (cats : list Category) : Prop :=
  NoDup ((λ cat, toLowerCase (cat_name cat)) <$> cats).
End Categories.

(** * Properties *)

(** ** Calendar arithmetic *)

Ltac div_lia := Z.div_mod_to_equations; lia.

Lemma isLeap_true_iff y :
  isLeap y = true <-> (y mod 4 = 0 /\ y mod 100 <> 0) \/ y mod 400 = 0.
Proof.
  unfold isLeap.
  rewrite orb_true_iff, andb_true_iff, negb_true_iff, !Z.eqb_eq, Z.eqb_neq.
  tauto.
Qed.

Lemma DayFromYear_succ y : DayFromYear (y + 1) = DayFromYear y + DaysInYear y.
Proof.
  unfold DaysInYear.
  destruct (isLeap y) eqn:E.
  - apply isLeap_true_iff in E. unfold DayFromYear. div_lia.
  - assert (H : ~ ((y mod 4 = 0 /\ y mod 100 <> 0) \/ y mod 400 = 0)).
    { rewrite <- isLeap_true_iff. congruence. }
    unfold DayFromYear. div_lia.
Qed.

Lemma DayFromYear_mono a b : a <= b -> DayFromYear a <= DayFromYear b.
Proof. unfold DayFromYear. intros. div_lia. Qed.

Lemma YearFromDay_bounds d :
  DayFromYear (YearFromDay d) <= d < DayFromYear (YearFromDay d + 1).
Proof.
  unfold YearFromDay. cbv zeta.
  set (y := 1970 + 400 * d / 146097).
  assert (Hlo : DayFromYear (y - 1) <= d) by (subst y; unfold DayFromYear; div_lia).
  assert (Hhi : d < DayFromYear (y + 1 + 1)) by (subst y; unfold DayFromYear; div_lia).
  destruct (Z.ltb_spec d (DayFromYear y)).
  - replace (y - 1 + 1) with y by lia. lia.
  - destruct (Z.leb_spec (DayFromYear (y + 1)) d); lia.
Qed.

Lemma YearFromDay_unique y d :
  DayFromYear y <= d < DayFromYear (y + 1) -> YearFromDay d = y.
Proof.
  intros H. pose proof (YearFromDay_bounds d) as B.
  destruct (Z.lt_trichotomy (YearFromDay d) y) as [L | [E | G]]; [|exact E|].
  - pose proof (DayFromYear_mono (YearFromDay d + 1) y ltac:(lia)). lia.
  - pose proof (DayFromYear_mono (y + 1) (YearFromDay d) ltac:(lia)). lia.
Qed.

Lemma month_cases m : 0 <= m <= 11 ->
  m = 0 \/ m = 1 \/ m = 2 \/ m = 3 \/ m = 4 \/ m = 5 \/ m = 6 \/ m = 7 \/
  m = 8 \/ m = 9 \/ m = 10 \/ m = 11.
Proof. lia. Qed.

Lemma leap_cases (b : bool) : (if b then 1 else 0) = 0 \/ (if b then 1 else 0) = 1.
Proof. destruct b; auto. Qed.

(** The day number built from a year, a month and a day of that month has
    those fields. *)
Lemma fields_of_day y m dt :
  let leap := if isLeap y then 1 else 0 in
  let day := DayFromYear y + monthStart m leap + dt - 1 in
  0 <= m <= 11 -> 1 <= dt <= DaysInMonth y m ->
  YearFromDay day = y /\
  monthOfYearDay (day - DayFromYear y) leap = m /\
  day - DayFromYear y - monthStart m leap + 1 = dt.
Proof.
  intros leap day Hm Hd.
  assert (Hy : YearFromDay day = y).
  { apply YearFromDay_unique. rewrite DayFromYear_succ.
    unfold DaysInYear, DaysInMonth in *. subst day leap. revert Hd.
    destruct (isLeap y);
      destruct (month_cases m Hm) as [->|[->|[->|[->|[->|[->|[->|[->|[->|[->|[->| ->]]]]]]]]]]];
      simpl; lia. }
  split; [exact Hy|]. split; [|subst day; lia].
  unfold DaysInMonth in Hd. subst day. fold leap in Hd.
  replace (DayFromYear y + monthStart m leap + dt - 1 - DayFromYear y)
    with (monthStart m leap + dt - 1) by lia.
  destruct (leap_cases (isLeap y)) as [E|E]; fold leap in E; rewrite E in *;
    destruct (month_cases m Hm) as [->|[->|[->|[->|[->|[->|[->|[->|[->|[->|[->| ->]]]]]]]]]]];
    simpl in Hd; unfold monthOfYearDay; simpl monthStart;
    repeat match goal with
    | |- context [?a <? ?b] => destruct (Z.ltb_spec a b); try lia
    end.
Qed.

Lemma Day_MakeDate day ms :
  0 <= ms < msPerDay -> Day (MakeDate day ms) = day /\ TimeWithinDay (MakeDate day ms) = ms.
Proof.
  unfold Day, TimeWithinDay, MakeDate, msPerDay. intros. div_lia.
Qed.

Lemma TimeWithinDay_range t : 0 <= TimeWithinDay t < msPerDay.
Proof. unfold TimeWithinDay, msPerDay. div_lia. Qed.

(** Every time value lies on a day of a month of its year. *)
Lemma fields_range t :
  0 <= MonthFromTime t <= 11 /\
  1 <= DateFromTime t <= DaysInMonth (YearFromTime t) (MonthFromTime t).
Proof.
  unfold DateFromTime, MonthFromTime, DaysInMonth, InLeapYear, DayWithinYear, YearFromTime.
  pose proof (YearFromDay_bounds (Day t)) as B.
  rewrite DayFromYear_succ in B. unfold DaysInYear in B.
  set (y := YearFromDay (Day t)) in *.
  set (dwy := Day t - DayFromYear y).
  assert (Hd : 0 <= dwy < if isLeap y then 366 else 365) by (subst dwy; lia).
  clearbody dwy.
  destruct (isLeap y); unfold monthOfYearDay;
    repeat match goal with
    | |- context [?a <? ?b] => destruct (Z.ltb_spec a b)
    end; simpl; lia.
Qed.

(** The civil fields of [civil y m d ms] for a date that exists. *)
Lemma civil_fields y m d ms :
  0 <= m <= 11 -> 1 <= d <= DaysInMonth y m -> 0 <= ms < msPerDay ->
  YearFromTime (civil y m d ms) = y /\
  MonthFromTime (civil y m d ms) = m /\
  DateFromTime (civil y m d ms) = d /\
  TimeWithinDay (civil y m d ms) = ms.
Proof.
  intros Hm Hd Hms. unfold civil.
  destruct (Day_MakeDate (MakeDay y m d) ms Hms) as [HD HT].
  assert (Hmk : MakeDay y m d
                = DayFromYear y + monthStart m (if isLeap y then 1 else 0) + d - 1).
  { unfold MakeDay. cbv zeta.
    replace (m / 12) with 0 by div_lia. replace (m mod 12) with m by div_lia.
    replace (y + 0) with y by lia. reflexivity. }
  destruct (fields_of_day y m d Hm Hd) as (Fy & Fm & Fd). cbv zeta in Fy, Fm, Fd.
  rewrite <- Hmk in Fy, Fm, Fd.
  assert (Y : YearFromTime (MakeDate (MakeDay y m d) ms) = y).
  { unfold YearFromTime. rewrite HD. exact Fy. }
  split; [exact Y|]. split; [|split; [|exact HT]].
  - unfold MonthFromTime, DayWithinYear, InLeapYear. rewrite Y, HD. exact Fm.
  - unfold DateFromTime, MonthFromTime, DayWithinYear, InLeapYear. rewrite Y, HD, Fm. lia.
Qed.

Lemma DaysInMonth_range y m : 0 <= m <= 11 -> 28 <= DaysInMonth y m <= 31.
Proof.
  intros Hm. unfold DaysInMonth.
  destruct (isLeap y);
    destruct (month_cases m Hm) as [->|[->|[->|[->|[->|[->|[->|[->|[->|[->|[->| ->]]]]]]]]]]];
    simpl; lia.
Qed.

Lemma DaysInMonth_december y : DaysInMonth y 11 = 31.
Proof. unfold DaysInMonth. destruct (isLeap y); reflexivity. Qed.

Lemma MakeDay_in_year y m d :
  0 <= m <= 11 ->
  MakeDay y m d = DayFromYear y + monthStart m (if isLeap y then 1 else 0) + d - 1.
Proof.
  intros Hm. unfold MakeDay. cbv zeta.
  replace (m / 12) with 0 by div_lia. replace (m mod 12) with m by div_lia.
  replace (y + 0) with y by lia. reflexivity.
Qed.

(** [MakeDay] carries a month number of 12 into the next year. *)
Lemma MakeDay_carry y m d :
  0 <= m <= 11 -> MakeDay y (m + 1) d = MakeDay (y + (m + 1) / 12) ((m + 1) mod 12) d.
Proof.
  intros Hm. rewrite (MakeDay_in_year (y + (m + 1) / 12)) by div_lia.
  reflexivity.
Qed.

(** A day of month past the end of the month is the excess in the month
    that follows. *)
Lemma MakeDay_overflow y m d :
  0 <= m <= 10 -> MakeDay y m d = MakeDay y (m + 1) (d - DaysInMonth y m).
Proof.
  intros Hm. rewrite !MakeDay_in_year by lia. unfold DaysInMonth. lia.
Qed.

(** What [setMonth(getMonth() + 1)] does to the local civil fields: the
    month that follows, the same day of the month when the month has it,
    and otherwise the excess days into the month after. *)
Lemma plusOneMonth_local lt :
  let y1 := YearFromTime lt + (MonthFromTime lt + 1) / 12 in
  let m1 := (MonthFromTime lt + 1) mod 12 in
  let d := DateFromTime lt in
  let nd := MakeDate (MakeDay (YearFromTime lt) (MonthFromTime lt + 1) d)
                     (TimeWithinDay lt) in
  TimeWithinDay nd = TimeWithinDay lt /\
  YearFromTime nd = y1 /\
  (d <= DaysInMonth y1 m1 -> MonthFromTime nd = m1 /\ DateFromTime nd = d) /\
  (DaysInMonth y1 m1 < d ->
   MonthFromTime nd = m1 + 1 /\ DateFromTime nd = d - DaysInMonth y1 m1).
Proof.
  intros y1 m1 d nd.
  destruct (fields_range lt) as [Hm Hd]. fold d in Hd.
  pose proof (TimeWithinDay_range lt) as Hms.
  assert (Hm1 : 0 <= m1 <= 11) by (subst m1; div_lia).
  pose proof (DaysInMonth_range (YearFromTime lt) _ Hm) as R0.
  pose proof (DaysInMonth_range y1 _ Hm1) as R1.
  assert (E : nd = civil y1 m1 d (TimeWithinDay lt)).
  { subst nd. unfold civil. rewrite MakeDay_carry by lia. reflexivity. }
  destruct (Z_le_gt_dec d (DaysInMonth y1 m1)) as [Le | Gt].
  - destruct (civil_fields y1 m1 d (TimeWithinDay lt)) as (Fy & Fm & Fd & Ft);
      [lia | lia | lia |].
    rewrite E. repeat split; try assumption; lia.
  - assert (Hlt : m1 <= 10).
    { destruct (Z.eq_dec m1 11) as [E11 | N]; [|lia].
      rewrite E11, DaysInMonth_december in Gt. lia. }
    pose proof (DaysInMonth_range y1 (m1 + 1) ltac:(lia)) as R2.
    assert (E' : nd = civil y1 (m1 + 1) (d - DaysInMonth y1 m1) (TimeWithinDay lt)).
    { rewrite E. unfold civil. rewrite (MakeDay_overflow y1 m1) by lia. reflexivity. }
    destruct (civil_fields y1 (m1 + 1) (d - DaysInMonth y1 m1) (TimeWithinDay lt))
      as (Fy & Fm & Fd & Ft); [lia | lia | lia |].
    rewrite E'. repeat split; try assumption; lia.
Qed.

Lemma Day_decompose t :
  Day t = DayFromYear (YearFromTime t)
          + monthStart (MonthFromTime t) (InLeapYear t) + DateFromTime t - 1.
Proof. unfold DateFromTime, DayWithinYear. lia. Qed.

Lemma Day_TimeWithinDay t : t = MakeDate (Day t) (TimeWithinDay t).
Proof. unfold MakeDate, Day, TimeWithinDay, msPerDay. div_lia. Qed.

(** [MakeDay] of the month after month [m] of year [y], December
    included, starts [monthStart (m + 1)] days into [y]. *)
Lemma MakeDay_next_month y m d :
  0 <= m <= 11 ->
  MakeDay y (m + 1) d
  = DayFromYear y + monthStart (m + 1) (if isLeap y then 1 else 0) + d - 1.
Proof.
  intros Hm. destruct (Z.eq_dec m 11) as [-> | Hne].
  - unfold MakeDay. cbv zeta.
    change ((11 + 1) / 12) with 1. change ((11 + 1) mod 12) with 0.
    rewrite DayFromYear_succ. unfold DaysInYear.
    destruct (isLeap y), (isLeap (y + 1)); simpl; lia.
  - apply MakeDay_in_year. lia.
Qed.

(** [setMonth(getMonth() + 1)] moves a local time forward by the length
    of the month it lies in. *)
Lemma plusOneMonth_shift lt :
  MakeDate (MakeDay (YearFromTime lt) (MonthFromTime lt + 1) (DateFromTime lt))
           (TimeWithinDay lt)
  = lt + DaysInMonth (YearFromTime lt) (MonthFromTime lt) * msPerDay.
Proof.
  destruct (fields_range lt) as [Hm _].
  rewrite (MakeDay_next_month _ _ _ Hm).
  pose proof (Day_TimeWithinDay lt) as H1.
  pose proof (Day_decompose lt) as H2.
  unfold DaysInMonth, InLeapYear, MakeDate, msPerDay in *. lia.
Qed.

Lemma plusOneMonth_value tza t :
  let t' := t + DaysInMonth (getFullYear tza t) (getMonth tza t) * msPerDay in
  plusOneMonth tza t = TimeClip t' /\
  LocalTime tza t' =
    MakeDate (MakeDay (getFullYear tza t) (getMonth tza t + 1) (getDate tza t))
             (TimeWithinDay (LocalTime tza t)).
Proof.
  cbv zeta. unfold plusOneMonth, setMonth, getFullYear, getMonth, getDate.
  cbv zeta. rewrite plusOneMonth_shift. unfold UTC, LocalTime. split.
  - f_equal. lia.
  - lia.
Qed.

Lemma TimeClip_in_range t : Z.abs t <= maxTime -> TimeClip t = Some t.
Proof. unfold TimeClip. intros H. by destruct (Z.leb_spec (Z.abs t) maxTime); [|lia]. Qed.

(** What [updateNextSendDate] computes on a host whose local time is at
    the constant offset [tza] from UTC.  For the first invoice with the
    given id, when its [nextSendDate] is set, the new date lies later
    than the current value (not than the clock) by the length of the
    month the current value is in, provided that date is representable,
    and [lastSentAt] is the clock.  The new date has the same time of
    day; it keeps the day of the month when the month that follows has
    such a day, and otherwise runs over into the month after by the
    excess days. *)
Lemma updateNextSendDate_advances tza now i (db : DB) k inv d :
  getInvoiceById i db = Some (k, inv) ->
  nextSendDate inv = Some d ->
  let d' := d + DaysInMonth (getFullYear tza d) (getMonth tza d) * msPerDay in
  Z.abs d' <= maxTime ->
  let inv' := set_lastSentAt (Some now) (set_nextSendDate (Some d') inv) in
  let y1 := getFullYear tza d + (getMonth tza d + 1) / 12 in
  let m1 := (getMonth tza d + 1) mod 12 in
  updateNextSendDate tza now i db = (Normal (Some inv'), <[k := inv']> db) /\
  nextSendDate inv' = Some d' /\
  lastSentAt inv' = Some now /\
  TimeWithinDay (LocalTime tza d') = TimeWithinDay (LocalTime tza d) /\
  getFullYear tza d' = y1 /\
  (getDate tza d <= DaysInMonth y1 m1 ->
   getMonth tza d' = m1 /\ getDate tza d' = getDate tza d) /\
  (DaysInMonth y1 m1 < getDate tza d ->
   getMonth tza d' = m1 + 1 /\
   getDate tza d' = getDate tza d - DaysInMonth y1 m1).
Proof.
  intros E Hd d' Hr inv' y1 m1.
  destruct (plusOneMonth_value tza d) as [Hp HL]. fold d' in Hp, HL.
  rewrite (TimeClip_in_range _ Hr) in Hp.
  split; [|split; [done|split; [done|]]].
  - unfold updateNextSendDate. rewrite E, Hd, Hp. reflexivity.
  - pose proof (plusOneMonth_local (LocalTime tza d)) as H. cbv zeta in H.
    unfold getFullYear, getMonth, getDate in *. rewrite HL.
    subst y1 m1. exact H.
Qed.


(** C1.  The claim, one calendar month later with the day of the month
    clamped to the end of the target month, fails on the code.  For an
    invoice due on 31 January 2025, 12:00 UTC, on a host in UTC,
    [updateNextSendDate] sets [nextSendDate] to 3 March 2025 where the
    clamped advance is 28 February: [setMonth] carries the days that
    February lacks into March.  From 31 January 2024 it goes to 2 March
    2024 where the clamped advance is 29 February. *)
Lemma updateNextSendDate_overflows_not_clamps :
  let jan31 := civil 2025 0 31 43200000 in
  let inv := sampleInvoice "1" "79001112233" false None true (Some jan31) in
  (updateNextSendDate 0 1739000000000 "1" [inv]).2 !! 0%nat ≫= nextSendDate
    = Some (civil 2025 2 3 43200000) /\
  spec_plusOneMonthClamped 0 jan31 = civil 2025 1 28 43200000 /\
  civil 2025 2 3 43200000 <> spec_plusOneMonthClamped 0 jan31 /\
  plusOneMonth 0 (civil 2024 0 31 43200000) = Some (civil 2024 2 2 43200000) /\
  spec_plusOneMonthClamped 0 (civil 2024 0 31 43200000)
    = civil 2024 1 29 43200000.
Proof. vm_compute. repeat split; discriminate. Qed.

(** ** Facts about the store *)

Lemma getInvoiceById_Some i (db : DB) k inv :
  getInvoiceById i db = Some (k, inv) -> db !! k = Some inv /\ id inv = i.
Proof.
  unfold getInvoiceById. intros (H1 & H2 & _)%list_find_Some. auto.
Qed.

(** Assigning fields other than [id] through the reference that
    [getInvoiceById] returned leaves that reference the first match. *)
Lemma getInvoiceById_insert i (db : DB) k inv inv' :
  getInvoiceById i db = Some (k, inv) -> id inv' = i ->
  getInvoiceById i (<[k := inv']> db) = Some (k, inv').
Proof.
  unfold getInvoiceById. intros (H1 & H2 & H3)%list_find_Some Hid.
  apply list_find_Some. split; [|split].
  - apply list_lookup_insert_eq. eapply lookup_lt_Some; eauto.
  - exact Hid.
  - intros j y Hj Hlt. rewrite list_lookup_insert_ne in Hj by lia. eauto.
Qed.

Lemma getInvoiceById_app i (db : DB) k inv l :
  getInvoiceById i db = Some (k, inv) -> getInvoiceById i (db ++ l) = Some (k, inv).
Proof. unfold getInvoiceById. apply list_find_app_l. Qed.

Lemma dueAt_true now inv :
  dueAt now inv = true <->
  autoSendEnabled inv = true /\ exists d, nextSendDate inv = Some d /\ d <= now.
Proof.
  unfold dueAt. destruct (autoSendEnabled inv), (nextSendDate inv) as [d|]; simpl.
  - rewrite Z.leb_le. split; [eauto|]. intros (_ & d' & [= <-] & ?). done.
  - split; [done|]. intros (_ & d' & ? & ?). done.
  - split; [done|]. intros (? & _). done.
  - split; [done|]. intros (? & _). done.
Qed.

Lemma filter_sublist {A} (P : A -> bool) (l : list A) : List.filter P l `sublist_of` l.
Proof.
  induction l as [|x l IH]; simpl; [constructor|].
  destruct (P x); by constructor.
Qed.

(** C7.  [getInvoicesForAutoSend] leaves the store as it is and returns, in
    store order, exactly the invoices with [autoSendEnabled] true and a
    [nextSendDate] that is set and not later than the clock; an invoice
    due exactly at the clock is included. *)
Theorem getInvoicesForAutoSend_exact now (db : DB) :
  (getInvoicesForAutoSend now db).2 = db /\
  (getInvoicesForAutoSend now db).1 `sublist_of` db /\
  forall inv, inv ∈ (getInvoicesForAutoSend now db).1 <->
    inv ∈ db /\ autoSendEnabled inv = true /\
    exists d, nextSendDate inv = Some d /\ d <= now.
Proof.
  unfold getInvoicesForAutoSend. simpl. split; [done|]. split.
  - apply filter_sublist.
  - intros inv. rewrite !list_elem_of_In, filter_In, dueAt_true. tauto.
Qed.

Example due_set_example :
  let now := 1700000000000 in
  let a := sampleInvoice "a" "79001112233" false None true (Some (now - 1000)) in
  let b := sampleInvoice "b" "79001112233" false None true (Some now) in
  let c := sampleInvoice "c" "79001112233" false None true (Some (now + 1000)) in
  let d := sampleInvoice "d" "79001112233" false None false (Some (now - 1000)) in
  getInvoicesForAutoSend now [a; b; c; d] = ([a; b], [a; b; c; d]).
Proof. reflexivity. Qed.

(** C8.  When every invoice satisfies [paid = true <-> paidAt <> null],
    so does every invoice after [markAsPaid] and after [markAsUnpaid];
    [markAsPaid] returns the invoice with [paid = true] and [paidAt] the
    clock, [markAsUnpaid] returns it with [paid = false] and
    [paidAt = null], and the returned invoice is in the store.  An id
    that some stored invoice has is always found: both calls return an
    invoice, which is the first stored one with that id, marked, written
    back at its position, with no other field and no other record
    changed. *)
Theorem payment_invariant_preserved now i (db : DB) :
  Forall paymentConsistent db ->
  Forall paymentConsistent (markAsPaid now i db).2 /\
  Forall paymentConsistent (markAsUnpaid i db).2 /\
  (forall inv, (markAsPaid now i db).1 = Some inv ->
     paid inv = true /\ paidAt inv = Some now /\ inv ∈ (markAsPaid now i db).2) /\
  (forall inv, (markAsUnpaid i db).1 = Some inv ->
     paid inv = false /\ paidAt inv = None /\ inv ∈ (markAsUnpaid i db).2) /\
  (i ∈ id <$> db ->
     is_Some (markAsPaid now i db).1 /\ is_Some (markAsUnpaid i db).1) /\
  (forall k inv0,
     db !! k = Some inv0 -> id inv0 = i ->
     (forall j y, db !! j = Some y -> (j < k)%nat -> id y ≠ i) ->
     exists p u,
       markAsPaid now i db = (Some p, <[k := p]> db) /\
       id p = i /\ paid p = true /\ paidAt p = Some now /\
       set_payment (paid inv0) (paidAt inv0) p = inv0 /\
       markAsUnpaid i db = (Some u, <[k := u]> db) /\
       id u = i /\ paid u = false /\ paidAt u = None /\
       set_payment (paid inv0) (paidAt inv0) u = inv0).
Proof.
  intros Hall.
  assert (Hfirst : forall k inv0,
            db !! k = Some inv0 -> id inv0 = i ->
            (forall j y, db !! j = Some y -> (j < k)%nat -> id y ≠ i) ->
            getInvoiceById i db = Some (k, inv0)).
  { intros k inv0 Hk Hid Hleast. unfold getInvoiceById.
    apply list_find_Some. split; [done|]. split; [done|]. exact Hleast. }
  unfold markAsPaid, markAsUnpaid in *.
  destruct (getInvoiceById i db) as [[k inv0]|] eqn:E; simpl.
  - pose proof (getInvoiceById_Some _ _ _ _ E) as [Hk Hid0].
    pose proof (lookup_lt_Some _ _ _ Hk) as Hlt.
    split; [|split; [|split; [|split; [|split]]]].
    + apply Forall_insert; [done|]. unfold paymentConsistent. simpl. done.
    + apply Forall_insert; [done|]. unfold paymentConsistent. simpl. done.
    + intros inv [= <-]. simpl. split; [done|]. split; [done|].
      apply list_elem_of_lookup. exists k. by apply list_lookup_insert_eq.
    + intros inv [= <-]. simpl. split; [done|]. split; [done|].
      apply list_elem_of_lookup. exists k. by apply list_lookup_insert_eq.
    + intros _. split; by eexists.
    + intros k' inv1 Hk' Hid Hleast.
      pose proof (Hfirst k' inv1 Hk' Hid Hleast) as [= <- <-].
      exists (set_payment true (Some now) inv0), (set_payment false None inv0).
      destruct inv0; simpl in *. done.
  - apply list_find_None in E.
    split; [done|]. split; [done|]. split; [done|]. split; [done|]. split.
    + intros (y & Hy & Hin)%list_elem_of_fmap.
      rewrite Forall_forall in E. by destruct (E y Hin).
    + intros k inv0 Hk Hid _. rewrite Forall_forall in E.
      destruct (E inv0); [by eapply list_elem_of_lookup_2|done].
Qed.

Lemma payment_invariant_preserved_witness :
  let inv := sampleInvoice "7" "79001112233" false None false None in
  Forall paymentConsistent (markAsPaid 2000 "7" [inv]).2.
Proof.
  intros inv.
  apply (payment_invariant_preserved 2000 "7" [inv]).
  repeat constructor; simpl; done.
Defined.

Lemma set_payment_same inv : set_payment (paid inv) (paidAt inv) inv = inv.
Proof. by destruct inv. Qed.

(** C9, as the code has it.  [markAsUnpaid] on an invoice that is already
    unpaid changes nothing.  [markAsPaid] on an invoice that is already
    paid writes the clock into [paidAt] and leaves every other field as it
    was: putting the old [paidAt] back gives the old record. *)
Theorem repeated_marking now i (db : DB) k inv :
  getInvoiceById i db = Some (k, inv) -> paymentConsistent inv ->
  (paid inv = false -> markAsUnpaid i db = (Some inv, db)) /\
  (paid inv = true ->
   let inv' := set_payment true (Some now) inv in
   markAsPaid now i db = (Some inv', <[k := inv']> db) /\
   paidAt inv' = Some now /\
   set_payment true (paidAt inv) inv' = inv).
Proof.
  intros E Hc. pose proof (getInvoiceById_Some _ _ _ _ E) as [Hk _]. split.
  - intros Hp. unfold markAsUnpaid. rewrite E.
    assert (Hpa : paidAt inv = None).
    { destruct (paidAt inv) eqn:Ep; [|done].
      destruct Hc as [_ Hc]. assert (paid inv = true) by (apply Hc; congruence).
      congruence. }
    assert (Hs : set_payment false None inv = inv).
    { rewrite <- Hp, <- Hpa. apply set_payment_same. }
    rewrite Hs, list_insert_id by done. done.
  - intros Hp inv'. unfold markAsPaid. rewrite E. split; [done|]. split; [done|].
    subst inv'. destruct inv; simpl in *. by subst.
Qed.

Lemma repeated_marking_witness :
  let inv := sampleInvoice "7" "" true (Some 1000) false None in
  markAsPaid 2000 "7" [inv]
  = (Some (set_payment true (Some 2000) inv), [set_payment true (Some 2000) inv]).
Proof.
  intros inv.
  apply (repeated_marking 2000 "7" [inv] 0%nat inv); [reflexivity | | reflexivity].
  unfold paymentConsistent. simpl. split; done.
Defined.

(** C9 as stated fails: [markAsPaid] at time 2000 on an invoice paid at
    time 1000 changes the store, the new [paidAt] is 2000. *)
Lemma markAsPaid_restamps_paidAt :
  let inv := sampleInvoice "7" "" true (Some 1000) false None in
  paid inv = true /\
  (markAsPaid 2000 "7" [inv]).2 ≠ [inv] /\
  (markAsPaid 2000 "7" [inv]).2 !! 0%nat ≫= paidAt = Some 2000.
Proof. split; [done|]. split; [|done]. vm_compute. discriminate. Qed.

(** C10.  The invoice [addInvoice] creates and appends has [paid = false],
    [paidAt = null] and [lastSentAt = null], and whatever the argument
    holds under the keys [paid], [paidAt] and [lastSentAt] makes no
    difference to the result. *)
Theorem addInvoice_starts_unpaid now data (db : DB) :
  paid (addInvoice now data db).1 = false /\
  paidAt (addInvoice now data db).1 = None /\
  lastSentAt (addInvoice now data db).1 = None /\
  (addInvoice now data db).2 = db ++ [(addInvoice now data db).1] /\
  forall p pa ls,
    addInvoice now (withPaymentKeys p pa ls data) db = addInvoice now data db.
Proof. repeat split. Qed.

(** ** Facts about the payment route *)

Lemma updatePaymentStatus_found now i p (db : DB) k old :
  getInvoiceById i db = Some (k, old) ->
  updatePaymentStatus now i p db =
    (Some (set_payment p (if p then Some now else None) old),
     <[k := set_payment p (if p then Some now else None) old]> db).
Proof.
  intros E. unfold updatePaymentStatus, markAsPaid, markAsUnpaid.
  destruct p; rewrite E; reflexivity.
Qed.

Section Route.
Variable tza : Z.
Variable san : string -> string.

(** Without the transition from unpaid to paid the route only updates the
    payment status. *)
Lemma putPayment_plain now now' pdfOk i p st k old :
  getInvoiceById i (st_db st) = Some (k, old) ->
  p && negb (paid old) = false ->
  let inv := set_payment p (if p then Some now else None) old in
  putPayment tza san now now' pdfOk i p st =
    (Json 200 (mkBody (Some inv) None None None),
     mkState (<[k := inv]> (st_db st)) (st_counter st)).
Proof.
  intros E Hc inv. unfold putPayment.
  rewrite E, (updatePaymentStatus_found _ _ _ _ _ _ E), Hc. reflexivity.
Qed.

(** On the transition the route runs the duplication and turns a throw
    into a warning. *)
Lemma putPayment_transition now now' pdfOk i st k old :
  getInvoiceById i (st_db st) = Some (k, old) ->
  paid old = false ->
  let inv := set_payment true (Some now) old in
  let st1 := mkState (<[k := inv]> (st_db st)) (st_counter st) in
  putPayment tza san now now' pdfOk i true st =
    match duplicateOnPayment tza san now now' pdfOk inv st1 with
    | (Normal r, st2) => (r, st2)
    | (Throw _, st2) =>
        (Json 200
           (mkBody (st_db st2 !! k) None None
              (Some "Счет оплачен, но не удалось создать новый автоматически")),
         st2)
    end.
Proof.
  intros E Hp inv st1. unfold putPayment.
  rewrite E, (updatePaymentStatus_found _ _ _ _ _ _ E), Hp. reflexivity.
Qed.

(** A duplication that throws has touched the counter at most. *)
Lemma duplicateOnPayment_throw now now' pdfOk inv st msg st' :
  duplicateOnPayment tza san now now' pdfOk inv st = (Throw msg, st') ->
  st_db st' = st_db st.
Proof.
  unfold duplicateOnPayment. simpl.
  destruct (client inv); [|by intros [= _ <-]].
  destruct pdfOk; simpl; [|by intros [= _ <-]].
  destruct (plusOneMonth tza now'); [|by intros [= _ <-]].
  discriminate.
Qed.

(** What a duplication that completes has done. *)
Lemma duplicateOnPayment_normal now now' pdfOk inv st r st' :
  duplicateOnPayment tza san now now' pdfOk inv st = (Normal r, st') ->
  exists new next,
    let db1 := st_db st ++ [new] in
    let db2 := if autoSendEnabled inv
               then (setAutoSend (id inv) false None db1).2 else db1 in
    st' = mkState db2 (getNextInvoiceNumber (st_counter st)).2 /\
    r = Json 200
          (mkBody (snd <$> getInvoiceById (id inv) db2) (Some new)
             (Some ("Счет оплачен! Автоматически создан новый счет №"
                    +:+ (getNextInvoiceNumber (st_counter st)).1
                    +:+ " на следующий месяц")) None) /\
    pdfOk = true /\
    plusOneMonth tza now' = Some next /\
    nextSendDate new = Some next /\
    autoSendEnabled new = true /\
    paid new = false /\
    invoiceNumber new = (getNextInvoiceNumber (st_counter st)).1.
Proof.
  unfold duplicateOnPayment. simpl.
  destruct (client inv); [|discriminate].
  destruct pdfOk; simpl; [|discriminate].
  destruct (plusOneMonth tza now') as [next|]; [|discriminate].
  intros [= <- <-]. eexists _, next. cbv zeta.
  split; [reflexivity|]. repeat split.
Qed.

Lemma setAutoSend_length i b n (db : DB) :
  length (setAutoSend i b n db).2 = length db.
Proof.
  unfold setAutoSend. destruct (getInvoiceById i db) as [[k inv]|]; simpl; [|done].
  by rewrite length_insert.
Qed.

(** C3.  For an invoice that exists, the payment route creates a
    successor only on the transition from unpaid to paid: when the invoice
    is already paid, or the request marks it unpaid, the route only
    updates the payment status (same number of invoices, counter
    untouched, no new invoice in the answer); whenever the answer carries
    a new invoice, the invoice was unpaid and the request marks it paid,
    exactly one invoice was added, it has auto-send armed and the next
    number of the counter. *)
Theorem duplication_only_on_unpaid_to_paid now now' pdfOk i p st k old :
  getInvoiceById i (st_db st) = Some (k, old) ->
  let r := putPayment tza san now now' pdfOk i p st in
  (paid old = true \/ p = false ->
     r.2 = mkState (updatePaymentStatus now i p (st_db st)).2 (st_counter st) /\
     length (st_db r.2) = length (st_db st) /\
     exists inv, r.1 = Json 200 (mkBody (Some inv) None None None)) /\
  (forall b new, r.1 = Json 200 b -> body_newInvoice b = Some new ->
     paid old = false /\ p = true /\
     autoSendEnabled new = true /\
     invoiceNumber new = (getNextInvoiceNumber (st_counter st)).1 /\
     length (st_db r.2) = S (length (st_db st))) /\
  (length (st_db r.2) ≠ length (st_db st) -> paid old = false /\ p = true).
Proof.
  intros E r.
  destruct (p && negb (paid old)) eqn:Hc.
  - apply andb_true_iff in Hc as [-> Hn]. apply negb_true_iff in Hn.
    split; [intros [?|?]; congruence|].
    split; [|done].
    intros b new Hr Hb. subst r.
    rewrite (putPayment_transition _ _ _ _ _ _ _ E Hn) in Hr |- *. cbv zeta in *.
    destruct (duplicateOnPayment _ _ _ _ _ _ _) as [[resp|msg] st2] eqn:D.
    + apply duplicateOnPayment_normal in D as (new' & next & D).
      cbv zeta in D. destruct D as (-> & -> & _ & _ & _ & Ha & _ & Hnum).
      cbn [fst snd st_db st_counter] in *.
      injection Hr as <-. cbn [body_newInvoice] in Hb. injection Hb as <-.
      repeat split; try done.
      destruct (autoSendEnabled (set_payment _ _ _));
        rewrite ?setAutoSend_length, length_app, length_insert; simpl; lia.
    + simpl in Hr. injection Hr as <-. discriminate.
  - pose proof (putPayment_plain now now' pdfOk _ _ _ _ _ E Hc) as HP. cbv zeta in HP.
    assert (Hlen : length (st_db r.2) = length (st_db st)).
    { subst r. rewrite HP. simpl. by rewrite length_insert. }
    split; [|split].
    + intros _. split; [|split; [done|]].
      * subst r. rewrite HP, (updatePaymentStatus_found _ _ _ _ _ _ E). done.
      * subst r. rewrite HP. eauto.
    + intros b new Hr Hb. subst r. rewrite HP in Hr. simpl in Hr.
      injection Hr as <-. discriminate.
    + intros Hne. done.
Qed.

(** C5.  When the invoice was unpaid, the request marks it paid and the
    duplication throws (whatever the step), the route still answers with
    status 200 and [success], carrying the paid invoice and a warning in
    [error]; the store is the one after the payment update, the invoice is
    paid with [paidAt] the clock. *)
Theorem payment_stands_when_duplication_fails now now' pdfOk i st k old msg :
  getInvoiceById i (st_db st) = Some (k, old) ->
  paid old = false ->
  let inv := set_payment true (Some now) old in
  let st1 := mkState (<[k := inv]> (st_db st)) (st_counter st) in
  (duplicateOnPayment tza san now now' pdfOk inv st1).1 = Throw msg ->
  let r := putPayment tza san now now' pdfOk i true st in
  (exists warning, r.1 = Json 200 (mkBody (Some inv) None None (Some warning))) /\
  st_db r.2 = <[k := inv]> (st_db st) /\
  getInvoiceById i (st_db r.2) = Some (k, inv) /\
  paid inv = true /\ paidAt inv = Some now.
Proof.
  intros E Hp inv st1 HT r.
  pose proof (getInvoiceById_Some _ _ _ _ E) as [Hk Hid].
  assert (Hdb : st_db r.2 = <[k := inv]> (st_db st) /\
                exists warning,
                  r.1 = Json 200 (mkBody (Some inv) None None (Some warning))).
  { subst r. rewrite (putPayment_transition _ _ _ _ _ _ _ E Hp). cbv zeta.
    fold inv. fold st1.
    destruct (duplicateOnPayment _ _ _ _ _ _ _) as [[resp|m] st2] eqn:D;
      [discriminate HT|].
    apply duplicateOnPayment_throw in D. cbn [fst snd]. rewrite D. subst st1.
    cbn [st_db]. split; [done|]. eexists.
    rewrite list_lookup_insert_eq by (eapply lookup_lt_Some; eauto). done. }
  destruct Hdb as [Hdb Hresp]. split; [done|]. split; [done|].
  split; [|done]. rewrite Hdb. by apply (getInvoiceById_insert _ _ _ old).
Qed.

(** C4, as the code has it.  When the duplication completes on a source
    invoice that had [autoSendEnabled] true, the source ends with
    [autoSendEnabled] false and with its [nextSendDate] as it was
    ([setAutoSend] assigns the date only when it is given one), and it is
    in no due set of the store. *)
Theorem duplication_disarms_source now now' i st k old name next :
  getInvoiceById i (st_db st) = Some (k, old) ->
  paid old = false ->
  autoSendEnabled old = true ->
  client old = Some name ->
  plusOneMonth tza now' = Some next ->
  let r := putPayment tza san now now' true i true st in
  let src := set_autoSendEnabled false (set_payment true (Some now) old) in
  getInvoiceById i (st_db r.2) = Some (k, src) /\
  autoSendEnabled src = false /\
  nextSendDate src = nextSendDate old /\
  forall t, src ∉ (getInvoicesForAutoSend t (st_db r.2)).1.
Proof.
  intros E Hp Ha Hc Hn r src.
  pose proof (getInvoiceById_Some _ _ _ _ E) as [Hk Hid].
  split; [|split; [done|split; [done|]]].
  - subst r. rewrite (putPayment_transition _ _ _ _ _ _ _ E Hp). cbv zeta.
    unfold duplicateOnPayment. cbn [getNextInvoiceNumber st_counter st_db].
    change (client (set_payment true (Some now) old)) with (client old).
    rewrite Hc. cbn [negb]. rewrite Hn.
    change (autoSendEnabled (set_payment true (Some now) old))
      with (autoSendEnabled old).
    rewrite Ha. cbn [addInvoice fst snd st_db].
    change (id (set_payment true (Some now) old)) with (id old). rewrite Hid.
    unfold setAutoSend.
    erewrite getInvoiceById_app;
      [|eapply (getInvoiceById_insert _ _ _ old); [exact E | exact Hid]].
    cbn [snd st_db].
    eapply getInvoiceById_insert; [|exact Hid].
    apply getInvoiceById_app.
    eapply (getInvoiceById_insert _ _ _ old); [exact E | exact Hid].
  - intros t. unfold getInvoicesForAutoSend. cbn [fst].
    rewrite list_elem_of_In, filter_In, dueAt_true. intros (_ & Hen & _).
    discriminate Hen.
Qed.
End Route.

Lemma duplication_only_on_unpaid_to_paid_witness :
  let inv := sampleInvoice "7" "79001112233" true (Some 1000) true (Some 5000) in
  length (st_db (putPayment 10800000 (λ s, s) 2000 2500 true "7" true
                   (mkState [inv] 41)).2) = length [inv].
Proof.
  intros inv.
  apply (duplication_only_on_unpaid_to_paid 10800000 (λ s, s) 2000 2500 true "7"
           true (mkState [inv] 41) 0%nat inv); [reflexivity | left; reflexivity].
Defined.

Lemma payment_stands_when_duplication_fails_witness :
  let inv := sampleInvoice "7" "79001112233" false None true (Some 5000) in
  st_db (putPayment 10800000 (λ s, s) 2000 2500 false "7" true (mkState [inv] 41)).2
  = [set_payment true (Some 2000) inv].
Proof.
  intros inv.
  apply (payment_stands_when_duplication_fails 10800000 (λ s, s) 2000 2500 false
           "7" (mkState [inv] 41) 0%nat inv "createInvoice failed");
    reflexivity.
Defined.

Lemma duplication_disarms_source_witness :
  let inv := sampleInvoice "7" "79001112233" false None true (Some 5000) in
  getInvoiceById "7"
    (st_db (putPayment 10800000 (λ s, s) 2000 1738324800000 true "7" true
              (mkState [inv] 41)).2)
  = Some (0%nat, set_autoSendEnabled false (set_payment true (Some 2000) inv)).
Proof.
  intros inv.
  apply (duplication_disarms_source 10800000 (λ s, s) 2000 1738324800000 "7"
           (mkState [inv] 41) 0%nat inv "Client" 1741003200000); reflexivity.
Defined.

(** C4 as stated fails: after the duplication on an unpaid invoice with
    auto-send armed for time 5000, the source has [autoSendEnabled] false
    but its [nextSendDate] is still 5000, not [null]. *)
Lemma duplication_keeps_source_nextSendDate :
  let inv := sampleInvoice "7" "79001112233" false None true (Some 5000) in
  let r := putPayment 10800000 (λ s, s) 2000 1738324800000 true "7" true
             (mkState [inv] 41) in
  length (st_db r.2) = 2%nat /\
  st_db r.2 !! 0%nat ≫= nextSendDate = Some 5000 /\
  autoSendEnabled <$> st_db r.2 !! 0%nat = Some false /\
  st_db r.2 !! 0%nat ≫= nextSendDate ≠ None.
Proof. vm_compute. repeat split; discriminate. Qed.

(** ** Facts about the scheduler *)

(** With identifiers that are unique, the lookup by the identifier of the
    object under a reference finds that reference. *)
Lemma getInvoiceById_unique (d : DB) k inv :
  NoDup (id <$> d) -> d !! k = Some inv -> getInvoiceById (id inv) d = Some (k, inv).
Proof.
  intros Hnd Hk. unfold getInvoiceById. apply list_find_Some.
  split; [done|]. split; [done|].
  intros j y Hj Hlt Heq.
  assert (j = k); [|lia].
  eapply (NoDup_lookup (id <$> d) j k (id inv)); [done| |].
  - rewrite list_lookup_fmap, Hj. simpl. by rewrite Heq.
  - by rewrite list_lookup_fmap, Hk.
Qed.

Lemma refsFrom_elem P b l j :
  j ∈ refsFrom P b l ->
  (b <= j)%nat /\ exists x, l !! (j - b)%nat = Some x /\ P x = true.
Proof.
  revert b. induction l as [|x l IH]; intros b; simpl; [by intros ?%elem_of_nil|].
  destruct (P x) eqn:Px.
  - intros [->|Hin]%elem_of_cons.
    + split; [lia|]. exists x. by rewrite Nat.sub_diag.
    + apply IH in Hin as (Hle & y & Hy & HP). split; [lia|]. exists y.
      replace (j - b)%nat with (S (j - S b)) by lia. done.
  - intros Hin. apply IH in Hin as (Hle & y & Hy & HP). split; [lia|]. exists y.
    replace (j - b)%nat with (S (j - S b)) by lia. done.
Qed.

Lemma refsFrom_NoDup P b l : NoDup (refsFrom P b l).
Proof.
  revert b. induction l as [|x l IH]; intros b; simpl; [constructor|].
  destruct (P x); [|apply IH]. constructor; [|apply IH].
  intros [Hle _]%refsFrom_elem. lia.
Qed.

(** The batch refers to the objects [getInvoicesForAutoSend] returns, in
    the same order. *)
Lemma refsFrom_objects P b l :
  (fun k => l !! (k - b)%nat) <$> refsFrom P b l = Some <$> List.filter P l.
Proof.
  revert b. induction l as [|x l IH]; intros b; simpl; [done|].
  assert (Hext : (fun k => (x :: l) !! (k - b)%nat) <$> refsFrom P (S b) l
                 = (fun k => l !! (k - S b)%nat) <$> refsFrom P (S b) l).
  { apply Forall_fmap_ext_1, Forall_forall. intros k [Hle _]%refsFrom_elem.
    replace (k - b)%nat with (S (k - S b)) by lia. done. }
  destruct (P x).
  - by rewrite !fmap_cons, Hext, IH, Nat.sub_diag.
  - by rewrite Hext, IH.
Qed.

Lemma dueRefs_objects now (d : DB) :
  (fun k => d !! k) <$> dueRefs now d = Some <$> (getInvoicesForAutoSend now d).1.
Proof.
  unfold dueRefs, getInvoicesForAutoSend. simpl.
  rewrite <- (refsFrom_objects _ 0%nat). apply list_fmap_ext. intros _ k _.
  by rewrite Nat.sub_0_r.
Qed.

Section Pass.
Variable tza : Z.

Lemma passes_afterSend t k r s : passes (afterSend tza t k r s) = passes s.
Proof.
  unfold afterSend. destruct (db s !! k); [|done].
  destruct (sendInvoice _ _); [|done].
  by destruct (updateNextSendDate _ _ _ _) as [[?|?] ?].
Qed.






Lemma log_afterSend t k r s :
  List.filter isSleeping (log (afterSend tza t k r s)) = List.filter isSleeping (log s) /\
  omap sendingRef (log (afterSend tza t k r s)) = omap sendingRef (log s).
Proof.
  unfold afterSend. destruct (db s !! k); [|done].
  destruct (sendInvoice _ _);
    [destruct (updateNextSendDate _ _ _ _) as [[?|?] ?]|]; simpl;
    by rewrite List.filter_app, omap_app, !app_nil_r.
Qed.

Lemma sendOutcome_ext (d d' : DB) k inv t r :
  d' !! k = d !! k -> sendOutcome tza d k inv t r -> sendOutcome tza d' k inv t r.
Proof.
  unfold sendOutcome. intros ->. done.
Qed.

(** One settled send touches the record under its own reference only. *)
Lemma db_afterSend t k r s inv :
  NoDup (id <$> db s) -> db s !! k = Some inv -> is_Some (nextSendDate inv) ->
  let d' := db (afterSend tza t k r s) in
  id <$> d' = id <$> db s /\
  (forall j, j ≠ k -> d' !! j = db s !! j) /\
  sendOutcome tza d' k inv t r.
Proof.
  intros Hnd Hk [cur Hcur]. unfold afterSend, sendOutcome. rewrite Hk.
  destruct (sendInvoice inv r) as [|msg]; [|done].
  unfold updateNextSendDate.
  rewrite (getInvoiceById_unique _ _ _ Hnd Hk), Hcur.
  destruct (plusOneMonth tza cur) as [shifted|] eqn:Hsh; simpl.
  - split; [|split].
    + rewrite list_fmap_insert. apply list_insert_id.
      by rewrite list_lookup_fmap, Hk.
    + intros j Hj. by rewrite list_lookup_insert_ne.
    + exists cur. split; [done|]. rewrite Hsh.
      apply list_lookup_insert_eq. by eapply lookup_lt_Some.
  - split; [done|]. split; [done|]. exists cur. by rewrite Hsh.
Qed.

Lemma passInputs_more t r o os :
  passInputs ((t, r) :: o :: os)
  = Settle 0 t r :: Settle 0 t Fulfilled :: passInputs (o :: os).
Proof. reflexivity. Qed.

(** The loop of one pass, from the first send on. *)
Lemma pass_from_send rest : forall k os s,
  passes s = [AwaitSend k rest] -> length os = S (length rest) ->
  NoDup (k :: rest) -> NoDup (id <$> db s) ->
  (forall k', k' ∈ k :: rest ->
     exists inv, db s !! k' = Some inv /\ is_Some (nextSendDate inv)) ->
  let s' := run tza s (passInputs os) in
  passes s' = [] /\ isProcessing s' = false /\
  List.filter isSleeping (log s')
    = List.filter isSleeping (log s) ++ replicate (length rest) (Sleeping sendDelay) /\
  omap sendingRef (log s') = omap sendingRef (log s) ++ rest /\
  id <$> db s' = id <$> db s /\
  (forall j, j ∉ k :: rest -> db s' !! j = db s !! j) /\
  (forall n k' t r inv,
     (k :: rest) !! n = Some k' -> os !! n = Some (t, r) ->
     db s !! k' = Some inv -> sendOutcome tza (db s') k' inv t r).
Proof.
  induction rest as [|k2 rest IH]; intros k os s Hp Hlen Hnd Hids Hval.
  - destruct os as [|[t r] [|? ?]]; try done. cbv zeta.
    destruct (Hval k ltac:(left)) as (inv & Hk & Hnext).
    destruct (db_afterSend t k r s inv Hids Hk Hnext) as (Hi & Ho & Hs).
    destruct (log_afterSend t k r s) as [Hl1 Hl2].
    assert (E : run tza s (passInputs [(t, r)])
                = setProcessing false
                    (setPasses [] (addLog AllProcessed (afterSend tza t k r s)))).
    { simpl. unfold settle. rewrite Hp. simpl. by rewrite passes_afterSend, Hp. }
    rewrite E. simpl. split; [done|]. split; [done|].
    rewrite List.filter_app, omap_app, Hl1, Hl2. simpl.
    split; [done|]. split; [done|]. split; [done|]. split.
    + intros j Hj. apply Ho. intros ->. apply Hj. left.
    + intros [|n] k' t' r' inv' Hn Ho' Hk'; simplify_eq/=. done.
  - destruct os as [|[t r] [|o os]]; try done.
    destruct (Hval k ltac:(left)) as (inv & Hk & Hnext).
    destruct (db_afterSend t k r s inv Hids Hk Hnext) as (Hi & Ho & Hs).
    destruct (log_afterSend t k r s) as [Hl1 Hl2].
    set (s1 := afterSend tza t k r s) in *.
    set (s2 := setPasses [AwaitSend k2 rest]
                 (addLog (Sending k2)
                    (setPasses [AwaitSleep k2 rest]
                       (addLog (Sleeping sendDelay) s1)))).
    assert (E : run tza s (passInputs ((t, r) :: o :: os))
                = run tza s2 (passInputs (o :: os))).
    { rewrite passInputs_more. unfold run. cbn [fold_left step].
      f_equal. unfold settle at 2. rewrite Hp. simpl.
      fold s1. unfold settle.
      replace (passes s1) with [AwaitSend k (k2 :: rest)]
        by (subst s1; by rewrite passes_afterSend). done. }
    apply NoDup_cons in Hnd as [Hk_rest Hnd].
    assert (Hdb2 : db s2 = db s1) by done.
    assert (Hother : forall j, j ∈ k2 :: rest -> db s2 !! j = db s !! j).
    { intros j Hj. rewrite Hdb2. apply Ho. intros ->. done. }
    specialize (IH k2 (o :: os) s2 eq_refl ltac:(simpl in *; lia) Hnd).
    destruct IH as (I1 & I2 & I3 & I4 & I5 & I6 & I7).
    { by rewrite Hdb2, Hi. }
    { intros k' Hk'. rewrite (Hother k' Hk'). apply Hval. by right. }
    cbv zeta. rewrite E.
    split; [done|]. split; [done|]. split; [|split; [|split; [|split]]].
    + rewrite I3. subst s2. simpl.
      rewrite !List.filter_app, Hl1. simpl. by rewrite <- !app_assoc.
    + rewrite I4. subst s2. simpl.
      rewrite !omap_app, Hl2. simpl. by rewrite <- !app_assoc.
    + by rewrite I5, Hdb2, Hi.
    + intros j Hj. rewrite I6, Hdb2.
      * apply Ho. intros ->. apply Hj. left.
      * intros Hin. apply Hj. by right.
    + intros [|n] k' t' r' inv' Hn Ho' Hk'; simplify_eq/=.
      * apply (sendOutcome_ext (db s1)); [|done].
        rewrite I6; [done|]. done.
      * apply (I7 n k' t' r' inv' Hn Ho').
        rewrite Hother; [done|]. by eapply list_elem_of_lookup_2.
Qed.

Lemma dueRefs_valid now (d : DB) k :
  k ∈ dueRefs now d -> exists inv, d !! k = Some inv /\ is_Some (nextSendDate inv).
Proof.
  intros (_ & inv & Hk & Hd)%refsFrom_elem. rewrite Nat.sub_0_r in Hk.
  exists inv. split; [done|].
  apply dueAt_true in Hd as (_ & cur & -> & _). by eexists.
Qed.

End Pass.

(** The pacing example of the specification: three due invoices, the
    second send fails.  Two pauses, three attempts, the first and the
    third record advanced, the second as it was. *)
Example dispatch_three_example :
  let now := 1738400000000 in
  let a := sampleInvoice "1" "79001112233" false None true (Some (now - 1000)) in
  let b := sampleInvoice "2" "89001112233" false None true (Some now) in
  let c := sampleInvoice "3" "9001112233" false None true (Some (now - 5000)) in
  let os := [(now + 10, Fulfilled); (now + 20, Rejected "not ready");
             (now + 30, Fulfilled)] in
  let s := run 10800000 (init [a; b; c]) (Invoke now :: passInputs os) in
  log s = [Sending 0; Sent 0; Sleeping 600000; Sending 1;
           SendFailed 1 "not ready"; Sleeping 600000; Sending 2; Sent 2;
           AllProcessed] /\
  nextSendDate <$> db s
    = [Some (now - 1000 + 28 * msPerDay); Some now;
       Some (now - 5000 + 28 * msPerDay)] /\
  lastSentAt <$> db s = [Some (now + 10); None; Some (now + 30)].
Proof. vm_compute. repeat split. Qed.

(** Calls that arrive while a pass is suspended are dropped; the call
    after the end of the pass starts a new one. *)
Example overlapping_calls_example :
  let now := 1738400000000 in
  let a := sampleInvoice "1" "79001112233" false None true (Some (now - 1000)) in
  let b := sampleInvoice "2" "89001112233" false None true (Some now) in
  let s := run 10800000 (init [a; b])
             [Invoke now; Invoke (now + 5); Settle 0 (now + 10) (Rejected "busy");
              Invoke (now + 11); Settle 0 (now + 12) Fulfilled;
              Settle 0 (now + 20) Fulfilled; Invoke (now + 30)] in
  log s = [Sending 0; Skipped; SendFailed 0 "busy"; Sleeping 600000; Skipped;
           Sending 1; Sent 1; AllProcessed; Sending 0] /\
  isProcessing s = true /\ passes s = [AwaitSend 0 []].
Proof. vm_compute. repeat split. Qed.



(** * Further properties *)

(** ** The store *)

Lemma getInvoiceById_None i (db : DB) :
  getInvoiceById i db = None <-> Forall (λ inv, id inv ≠ i) db.
Proof. unfold getInvoiceById. apply list_find_None. Qed.

Lemma getInvoiceById_split i (db : DB) k inv :
  getInvoiceById i db = Some (k, inv) ->
  db = take k db ++ inv :: drop (S k) db /\
  length (take k db) = k /\
  Forall (λ y, id y ≠ i) (take k db) /\ id inv = i.
Proof.
  unfold getInvoiceById. intros (Hk & Hid & Hleast)%list_find_Some.
  pose proof (lookup_lt_Some _ _ _ Hk) as Hlt.
  split; [by rewrite take_drop_middle|]. split; [rewrite length_take; lia|].
  split; [|done]. apply Forall_lookup. intros j y Hj.
  apply lookup_take_Some in Hj as [Hj Hjk]. by apply (Hleast j).
Qed.

Lemma deleteInvoice_cases i (db : DB) :
  (Forall (λ y, id y ≠ i) db /\ deleteInvoice i db = (None, db)) \/
  (exists l1 x l2,
     db = l1 ++ x :: l2 /\ id x = i /\ Forall (λ y, id y ≠ i) l1 /\
     deleteInvoice i db = (Some x, l1 ++ l2)).
Proof.
  unfold deleteInvoice. destruct (getInvoiceById i db) as [[k inv]|] eqn:E.
  - right. destruct (getInvoiceById_split _ _ _ _ E) as (Hs & Hl & Hf & Hid).
    exists (take k db), inv, (drop (S k) db). repeat split; try done.
    by rewrite delete_take_drop.
  - left. split; [|done]. by apply getInvoiceById_None.
Qed.

(** X1.  [deleteInvoice] with an id that no stored invoice has returns [null]
    and leaves the store as it is; otherwise it returns the first invoice
    with that id and takes that one record out, the invoices before it
    and after it staying in their order. *)
Theorem deleteInvoice_removes_first i (db : DB) :
  (Forall (λ y, id y ≠ i) db /\ deleteInvoice i db = (None, db)) \/
  (exists l1 x l2,
     db = l1 ++ x :: l2 /\ id x = i /\ Forall (λ y, id y ≠ i) l1 /\
     deleteInvoice i db = (Some x, l1 ++ l2)).
Proof. apply deleteInvoice_cases. Qed.

Lemma NoDup_ids_eq (db : DB) x y :
  NoDup (id <$> db) -> x ∈ db -> y ∈ db -> id x = id y -> x = y.
Proof.
  intros Hnd [j Hj]%list_elem_of_lookup [k Hk]%list_elem_of_lookup Hid.
  assert (j = k).
  { eapply (NoDup_lookup (id <$> db) j k (id x)); [done| |].
    - by rewrite list_lookup_fmap, Hj.
    - by rewrite list_lookup_fmap, Hk, Hid. }
  congruence.
Qed.

(** Two arrays with the same invoices, whose ids are unique, answer every
    lookup by id with the same invoice. *)
Lemma getInvoiceById_Permutation i (l l' : DB) :
  NoDup (id <$> l) -> l ≡ₚ l' ->
  snd <$> getInvoiceById i l = snd <$> getInvoiceById i l'.
Proof.
  intros Hnd Hp.
  destruct (getInvoiceById i l) as [[k x]|] eqn:E;
    destruct (getInvoiceById i l') as [[k' y]|] eqn:E'; simpl; try done.
  - f_equal. apply getInvoiceById_Some in E as [Hk Hx], E' as [Hk' Hy].
    apply (NoDup_ids_eq l); [done| | |congruence].
    + by eapply list_elem_of_lookup_2.
    + rewrite Hp. by eapply list_elem_of_lookup_2.
  - apply getInvoiceById_Some in E as [Hk Hx].
    apply getInvoiceById_None in E'. rewrite <- Hp in E'.
    rewrite Forall_forall in E'. destruct (E' x); [|done].
    by eapply list_elem_of_lookup_2.
  - apply getInvoiceById_Some in E' as [Hk Hx].
    apply getInvoiceById_None in E. rewrite Hp in E.
    rewrite Forall_forall in E. destruct (E y); [|done].
    by eapply list_elem_of_lookup_2.
Qed.

Lemma lookup_after_deleteInvoice i (db : DB) :
  NoDup (id <$> db) ->
  getInvoiceById i (deleteInvoice i db).2 = None /\
  forall j, j ≠ i ->
    snd <$> getInvoiceById j (deleteInvoice i db).2 = snd <$> getInvoiceById j db.
Proof.
  intros Hnd.
  destruct (deleteInvoice_cases i db)
    as [[Hf ->] | (l1 & x & l2 & Hdb & Hid & Hf & ->)]; simpl.
  - split; [by apply getInvoiceById_None|done].
  - subst db. rewrite fmap_app, fmap_cons in Hnd.
    apply NoDup_app in Hnd as (Hn1 & Hn12 & Hn2).
    apply NoDup_cons in Hn2 as [Hx Hn2]. split.
    + apply getInvoiceById_None, Forall_app. split; [done|].
      apply Forall_forall. intros y Hy Heq. apply Hx.
      replace (id x) with (id y) by congruence. by apply list_elem_of_fmap_2.
    + intros j Hj. unfold getInvoiceById.
      destruct (list_find (λ inv, id inv = j) l1) as [[k y]|] eqn:E1.
      * by rewrite !(list_find_app_l _ _ _ _ _ E1).
      * rewrite !(list_find_app_r _ _ _ E1). simpl.
        destruct (decide (id x = j)) as [Heq|_]; [congruence|].
        destruct (list_find _ l2) as [[k y]|]; done.
Qed.

(** X2.  When the ids of the store are pairwise distinct, the id given to
    [deleteInvoice] is not found afterwards, and the lookup of every
    other id finds the invoice it found before. *)
Theorem deleteInvoice_then_lookup i (db : DB) :
  NoDup (id <$> db) ->
  getInvoiceById i (deleteInvoice i db).2 = None /\
  forall j, j ≠ i ->
    snd <$> getInvoiceById j (deleteInvoice i db).2 = snd <$> getInvoiceById j db.
Proof. apply lookup_after_deleteInvoice. Qed.

(** X3.  [addInvoice] keeps every lookup that succeeded, at the same
    position.  When no stored invoice has the decimal string of the
    clock as its id, the new invoice is found under that id at the end of
    the store, and ids that were pairwise distinct stay so. *)
Theorem addInvoice_lookup now data (db : DB) :
  let db' := (addInvoice now data db).2 in
  (forall i k inv, getInvoiceById i db = Some (k, inv) ->
     getInvoiceById i db' = Some (k, inv)) /\
  (Forall (λ y, id y ≠ pretty now) db ->
     getInvoiceById (pretty now) db' = Some (length db, newInvoice now data) /\
     (NoDup (id <$> db) -> NoDup (id <$> db'))).
Proof.
  cbv zeta. unfold addInvoice. cbn [snd]. split.
  - intros i k inv. apply getInvoiceById_app.
  - intros Hf. split.
    + unfold getInvoiceById.
      rewrite list_find_app_r by (by apply list_find_None).
      simpl. destruct (decide _); done.
    + intros Hnd. rewrite fmap_app. apply NoDup_app. split; [done|]. split.
      * intros x Hx [->|[]%elem_of_nil]%elem_of_cons.
        apply list_elem_of_fmap in Hx as (y & Hy & Hin).
        rewrite Forall_forall in Hf. by apply (Hf y).
      * apply NoDup_singleton.
Qed.

Lemma addInvoice_lookup_witness :
  let inv := sampleInvoice "1700000000000" "" false None false None in
  let data := mkInvoiceData "002" "f.pdf" 0 None None None None false None None
                None None None false None false None None in
  getInvoiceById "1700000000001" (addInvoice 1700000000001 data [inv]).2
  = Some (1%nat, newInvoice 1700000000001 data).
Proof.
  intros inv data.
  apply (addInvoice_lookup 1700000000001 data [inv]).
  repeat constructor. vm_compute. discriminate.
Defined.

(** X4.  On an unpaid invoice without [paidAt], [markAsPaid] followed by
    [markAsUnpaid] returns the invoice as it was and gives back the store
    as it was. *)
Theorem markAsPaid_markAsUnpaid_roundtrip now i (db : DB) k inv :
  getInvoiceById i db = Some (k, inv) ->
  paid inv = false -> paidAt inv = None ->
  markAsUnpaid i (markAsPaid now i db).2 = (Some inv, db).
Proof.
  intros E Hp Hpa.
  pose proof (getInvoiceById_Some _ _ _ _ E) as [Hk Hid].
  unfold markAsPaid. rewrite E. cbn [snd]. unfold markAsUnpaid.
  rewrite (getInvoiceById_insert _ _ _ _ (set_payment true (Some now) inv) E Hid).
  assert (Hs : set_payment false None (set_payment true (Some now) inv) = inv).
  { destruct inv; simpl in *. by subst. }
  rewrite Hs, list_insert_insert_eq, list_insert_id by done. done.
Qed.

Lemma markAsPaid_markAsUnpaid_roundtrip_witness :
  let inv := sampleInvoice "7" "" false None true (Some 5000) in
  markAsUnpaid "7" (markAsPaid 2000 "7" [inv]).2 = (Some inv, [inv]).
Proof.
  intros inv.
  apply (markAsPaid_markAsUnpaid_roundtrip 2000 "7" [inv] 0%nat inv); reflexivity.
Defined.

Lemma refsFrom_elem_iff P b l j :
  j ∈ refsFrom P b l <->
  (b <= j)%nat /\ exists x, l !! (j - b)%nat = Some x /\ P x = true.
Proof.
  split; [apply refsFrom_elem|].
  revert b j. induction l as [|y l IH]; intros b j (Hle & x & Hx & HP); [done|].
  simpl. destruct (decide (j = b)) as [->|Hne].
  - rewrite Nat.sub_diag in Hx. simpl in Hx. simplify_eq. rewrite HP. by left.
  - assert (Hin : j ∈ refsFrom P (S b) l).
    { apply IH. split; [lia|]. exists x. split; [|done].
      replace (j - b)%nat with (S (j - S b)) in Hx by lia. done. }
    destruct (P y); [by right|done].
Qed.

Lemma dueRefs_elem now (d : DB) k :
  k ∈ dueRefs now d <-> exists inv, d !! k = Some inv /\ dueAt now inv = true.
Proof.
  unfold dueRefs. rewrite refsFrom_elem_iff, Nat.sub_0_r.
  split; [by intros [_ ?]|]. intros ?. split; [lia|done].
Qed.

Lemma refsFrom_insert_same P b (l : DB) k x y :
  l !! k = Some x -> P y = P x -> refsFrom P b (<[k := y]> l) = refsFrom P b l.
Proof.
  revert b k. induction l as [|z l IH]; intros b [|k] Hk HP; simplify_eq/=.
  - by rewrite HP.
  - by rewrite (IH (S b) k Hk HP).
Qed.

(** X5.  Marking an invoice paid or unpaid does not change which invoices
    are due for automatic sending, at any instant. *)
Theorem payment_marking_keeps_due_refs now t i (db : DB) :
  dueRefs t (markAsPaid now i db).2 = dueRefs t db /\
  dueRefs t (markAsUnpaid i db).2 = dueRefs t db.
Proof.
  unfold markAsPaid, markAsUnpaid.
  destruct (getInvoiceById i db) as [[k inv]|] eqn:E; [|done].
  apply getInvoiceById_Some in E as [Hk _]. cbn [snd]. unfold dueRefs.
  split; by apply (refsFrom_insert_same _ _ _ _ inv).
Qed.

(** X6.  On a stored invoice, [setAutoSend(id, true, d)] makes the invoice
    due exactly from [d] on, and [setAutoSend(id, false, ...)] makes it due
    at no instant; either way no other position of the store changes its
    being due. *)
Theorem setAutoSend_arms_and_disarms i (db : DB) k inv :
  getInvoiceById i db = Some (k, inv) ->
  (forall d t, k ∈ dueRefs t (setAutoSend i true (Some d) db).2 <-> d <= t) /\
  (forall next t, k ∉ dueRefs t (setAutoSend i false next db).2) /\
  (forall enabled t j, j ≠ k ->
     forall next, j ∈ dueRefs t (setAutoSend i enabled next db).2 <-> j ∈ dueRefs t db).
Proof.
  intros E. pose proof (getInvoiceById_Some _ _ _ _ E) as [Hk _].
  pose proof (lookup_lt_Some _ _ _ Hk) as Hlt.
  unfold setAutoSend. rewrite E. cbn [snd]. split; [|split].
  - intros d t. rewrite dueRefs_elem, list_lookup_insert_eq by done. split.
    + intros (x & [= <-] & Hd). apply dueAt_true in Hd as (_ & d' & [= <-] & ?). done.
    + intros Hd. eexists. split; [done|]. apply dueAt_true. split; [done|]. eauto.
  - intros next t. rewrite dueRefs_elem, list_lookup_insert_eq by done.
    intros (x & [= <-] & Hd). apply dueAt_true in Hd as [Hen _].
    by destruct next.
  - intros enabled t j Hj next. by rewrite !dueRefs_elem, list_lookup_insert_ne.
Qed.

Lemma setAutoSend_arms_and_disarms_witness :
  let inv := sampleInvoice "7" "" false None false None in
  0%nat ∈ dueRefs 5000 (setAutoSend "7" true (Some 4000) [inv]).2.
Proof.
  intros inv.
  destruct (setAutoSend_arms_and_disarms "7" [inv] 0%nat inv eq_refl) as [H _].
  apply H. vm_compute. discriminate.
Defined.

(** X7.  [setAutoSend] without a date keeps the [nextSendDate] of the
    invoice.  On an invoice with automatic sending on, switching it off
    and on again, both without a date, gives back the store as it was. *)
Theorem setAutoSend_without_date_keeps_date i (db : DB) k inv :
  getInvoiceById i db = Some (k, inv) ->
  (forall enabled inv', (setAutoSend i enabled None db).1 = Some inv' ->
     nextSendDate inv' = nextSendDate inv) /\
  (autoSendEnabled inv = true ->
   setAutoSend i true None (setAutoSend i false None db).2 = (Some inv, db)).
Proof.
  intros E. pose proof (getInvoiceById_Some _ _ _ _ E) as [Hk Hid]. split.
  - intros enabled inv'. unfold setAutoSend. rewrite E. by intros [= <-].
  - intros Ha. unfold setAutoSend at 2. rewrite E. cbn [snd].
    unfold setAutoSend.
    rewrite (getInvoiceById_insert _ _ _ _ (set_autoSendEnabled false inv) E Hid).
    assert (Hs : set_autoSendEnabled true (set_autoSendEnabled false inv) = inv).
    { destruct inv; simpl in *. by subst. }
    rewrite Hs, list_insert_insert_eq, list_insert_id by done. done.
Qed.

Lemma setAutoSend_without_date_keeps_date_witness :
  let inv := sampleInvoice "7" "" false None true (Some 4000) in
  setAutoSend "7" true None (setAutoSend "7" false None [inv]).2 = (Some inv, [inv]).
Proof.
  intros inv.
  apply (setAutoSend_without_date_keeps_date "7" [inv] 0%nat inv); reflexivity.
Defined.

Lemma deleteInvoice_then_lookup_witness :
  let a := sampleInvoice "1" "" false None false None in
  let b := sampleInvoice "2" "" false None false None in
  getInvoiceById "1" (deleteInvoice "1" [a; b]).2 = None.
Proof.
  intros a b. apply (deleteInvoice_then_lookup "1" [a; b]).
  apply (bool_decide_unpack _). vm_compute. exact I.
Defined.

(** ** The advance of the send date *)

Lemma TimeClip_Some t t' : TimeClip t = Some t' -> t' = t.
Proof. unfold TimeClip. destruct (_ <=? _); congruence. Qed.

Lemma plusOneMonth_bounds tza d d' :
  plusOneMonth tza d = Some d' ->
  d + 28 * msPerDay <= d' <= d + 31 * msPerDay.
Proof.
  destruct (plusOneMonth_value tza d) as [-> _]. intros ->%TimeClip_Some.
  destruct (fields_range (LocalTime tza d)) as [Hm _].
  pose proof (DaysInMonth_range (getFullYear tza d) (getMonth tza d) Hm).
  unfold msPerDay. lia.
Qed.

(** X8.  When [updateNextSendDate] returns an invoice, the stored invoice
    had a [nextSendDate] and the new one lies at least 28 and at most 31
    days after it (local time being at a constant offset from UTC);
    [lastSentAt] is the clock, the store changes at the position of that
    invoice only, and no other field of the invoice changes. *)
Theorem updateNextSendDate_moves_28_to_31_days tza now i (db : DB) inv' db' :
  updateNextSendDate tza now i db = (Normal (Some inv'), db') ->
  exists k inv d d',
    getInvoiceById i db = Some (k, inv) /\
    nextSendDate inv = Some d /\ nextSendDate inv' = Some d' /\
    d + 28 * msPerDay <= d' <= d + 31 * msPerDay /\
    lastSentAt inv' = Some now /\
    db' = <[k := inv']> db /\
    set_lastSentAt (lastSentAt inv) (set_nextSendDate (Some d) inv') = inv.
Proof.
  unfold updateNextSendDate.
  destruct (getInvoiceById i db) as [[k inv]|] eqn:E; [|discriminate].
  destruct (nextSendDate inv) as [d|] eqn:Hd; [|discriminate].
  destruct (plusOneMonth tza d) as [d'|] eqn:Hp; [|discriminate].
  intros [= <- <-]. exists k, inv, d, d'. repeat split; try done.
  - by apply (plusOneMonth_bounds tza).
  - by apply (plusOneMonth_bounds tza).
  - destruct inv; simpl in *. by subst.
Qed.

Lemma updateNextSendDate_moves_28_to_31_days_witness :
  let d := civil 2025 0 15 21600000 in
  let inv := sampleInvoice "1" "79001112233" false None true (Some d) in
  let inv' := set_lastSentAt (Some 1739000000000)
                (set_nextSendDate (Some (civil 2025 1 15 21600000)) inv) in
  exists k inv0 d0 d',
    getInvoiceById "1" [inv] = Some (k, inv0) /\
    nextSendDate inv0 = Some d0 /\ nextSendDate inv' = Some d' /\
    d0 + 28 * msPerDay <= d' <= d0 + 31 * msPerDay /\
    lastSentAt inv' = Some 1739000000000 /\
    [inv'] = <[k := inv']> [inv] /\
    set_lastSentAt (lastSentAt inv0) (set_nextSendDate (Some d0) inv') = inv0.
Proof.
  intros d inv inv'.
  apply (updateNextSendDate_moves_28_to_31_days 10800000 1739000000000 "1" [inv]).
  reflexivity.
Defined.

(** X9.  On a host whose local time is at a constant offset from UTC:
    after [updateNextSendDate] on an invoice with automatic sending on,
    the invoice is due at every instant that lies 31 days or more after
    its former date, and at no instant that lies less than 28 days after
    it. *)
Theorem due_again_after_advance tza now i (db : DB) k inv d inv' db' :
  getInvoiceById i db = Some (k, inv) ->
  nextSendDate inv = Some d ->
  autoSendEnabled inv = true ->
  updateNextSendDate tza now i db = (Normal (Some inv'), db') ->
  (forall t, d + 31 * msPerDay <= t -> k ∈ dueRefs t db') /\
  (forall t, t < d + 28 * msPerDay -> k ∉ dueRefs t db').
Proof.
  intros E Hd Ha. unfold updateNextSendDate. rewrite E, Hd.
  destruct (plusOneMonth tza d) as [d'|] eqn:Hp; [|discriminate].
  intros [= <- <-]. pose proof (plusOneMonth_bounds _ _ _ Hp) as Hb.
  pose proof (getInvoiceById_Some _ _ _ _ E) as [Hk _].
  pose proof (lookup_lt_Some _ _ _ Hk) as Hlt. split.
  - intros t Ht. apply dueRefs_elem. eexists.
    split; [by apply list_lookup_insert_eq|].
    apply dueAt_true. split; [done|]. exists d'. split; [done|lia].
  - intros t Ht. rewrite dueRefs_elem, list_lookup_insert_eq by done.
    intros (x & [= <-] & Hdue). apply dueAt_true in Hdue as (_ & d'' & [= <-] & ?).
    lia.
Qed.

Lemma due_again_after_advance_witness :
  let d := civil 2025 0 15 21600000 in
  let inv := sampleInvoice "1" "79001112233" false None true (Some d) in
  let inv' := set_lastSentAt (Some (civil 2025 3 1 0))
                (set_nextSendDate (Some (civil 2025 1 15 21600000)) inv) in
  0%nat ∈ dueRefs (civil 2025 3 1 0) [inv'].
Proof.
  intros d inv inv'.
  apply (due_again_after_advance 10800000 (civil 2025 3 1 0) "1" [inv] 0%nat inv d
           inv' [inv']); [reflexivity | reflexivity | reflexivity | reflexivity |].
  vm_compute. discriminate.
Defined.

(** ** Listing and statistics *)

Lemma insertNewestFirst_Permutation x l : insertNewestFirst x l ≡ₚ x :: l.
Proof.
  induction l as [|y l IH]; simpl; [done|].
  destruct (createdAt x <? createdAt y); [|done].
  rewrite IH. apply Permutation_swap.
Qed.

Lemma sortNewestFirst_Permutation l : sortNewestFirst l ≡ₚ l.
Proof.
  induction l as [|x l IH]; simpl; [done|].
  by rewrite insertNewestFirst_Permutation, IH.
Qed.

Lemma insertNewestFirst_sorted x l :
  StronglySorted (λ a b, createdAt b <= createdAt a) l ->
  StronglySorted (λ a b, createdAt b <= createdAt a) (insertNewestFirst x l).
Proof.
  induction 1 as [|y l Hs IH Hall]; simpl; [repeat constructor|].
  destruct (Z.ltb_spec (createdAt x) (createdAt y)).
  - constructor; [done|]. rewrite insertNewestFirst_Permutation.
    constructor; [lia|done].
  - constructor; [by constructor|]. constructor; [lia|].
    eapply Forall_impl; [exact Hall|]. simpl. intros; lia.
Qed.

Lemma sortNewestFirst_sorted l :
  StronglySorted (λ a b, createdAt b <= createdAt a) (sortNewestFirst l).
Proof.
  induction l as [|x l IH]; simpl; [constructor|]. by apply insertNewestFirst_sorted.
Qed.

Lemma sortNewestFirst_fixed l :
  StronglySorted (λ a b, createdAt b <= createdAt a) l -> sortNewestFirst l = l.
Proof.
  induction 1 as [|x l Hs IH Hall]; simpl; [done|]. rewrite IH.
  destruct Hall as [|y l' Hy _]; simpl; [done|].
  by destruct (Z.ltb_spec (createdAt x) (createdAt y)); [lia|].
Qed.

(** X10.  [getAllInvoices] sorts the array of the store itself: the store
    afterwards is the list it returns, which holds the same invoices,
    the latest [createdAt] first.  A store already in that order is left
    as it is, so a second call changes nothing more. *)
Theorem getAllInvoices_sorts_in_place (db : DB) :
  (getAllInvoices db).2 = (getAllInvoices db).1 /\
  (getAllInvoices db).1 ≡ₚ db /\
  StronglySorted (λ a b, createdAt b <= createdAt a) (getAllInvoices db).1 /\
  (StronglySorted (λ a b, createdAt b <= createdAt a) db -> getAllInvoices db = (db, db)) /\
  getAllInvoices (getAllInvoices db).2 = getAllInvoices db.
Proof.
  unfold getAllInvoices. cbn [fst snd]. split; [done|].
  split; [apply sortNewestFirst_Permutation|].
  split; [apply sortNewestFirst_sorted|]. split.
  - intros Hs. by rewrite (sortNewestFirst_fixed _ Hs).
  - by rewrite (sortNewestFirst_fixed _ (sortNewestFirst_sorted db)).
Qed.

Lemma insertNewestFirst_filter c x l :
  filter (λ y, createdAt y = c) (insertNewestFirst x l)
  = filter (λ y, createdAt y = c) (x :: l).
Proof.
  induction l as [|y l IH]; simpl; [done|].
  destruct (Z.ltb_spec (createdAt x) (createdAt y)); [|done].
  rewrite !filter_cons in *.
  destruct (decide (createdAt x = c)), (decide (createdAt y = c));
    try lia; by rewrite IH.
Qed.

(** X11.  [getAllInvoices] keeps invoices with the same [createdAt] in the
    order they had. *)
Theorem getAllInvoices_is_stable (db : DB) c :
  filter (λ y, createdAt y = c) (getAllInvoices db).1
  = filter (λ y, createdAt y = c) db.
Proof.
  unfold getAllInvoices. cbn [fst]. induction db as [|x l IH]; simpl; [done|].
  by rewrite insertNewestFirst_filter, !filter_cons, IH.
Qed.

Lemma List_filter_Permutation {A} (P : A -> bool) (l l' : list A) :
  l ≡ₚ l' -> List.filter P l ≡ₚ List.filter P l'.
Proof.
  induction 1 as [|x l l' _ IH|x y l|l1 l2 l3 _ IH1 _ IH2]; simpl.
  - done.
  - destruct (P x); by rewrite IH.
  - destruct (P x), (P y); try done. apply Permutation_swap.
  - by rewrite IH1.
Qed.

(** X12.  With pairwise distinct ids, the reordering by [getAllInvoices]
    changes the answer of no lookup by id and keeps the ids distinct, and
    the invoices due for automatic sending at any instant are the same
    up to their order. *)
Theorem getAllInvoices_keeps_lookups (db : DB) :
  NoDup (id <$> db) ->
  (forall i, snd <$> getInvoiceById i (getAllInvoices db).2
             = snd <$> getInvoiceById i db) /\
  (forall t, (getInvoicesForAutoSend t (getAllInvoices db).2).1
             ≡ₚ (getInvoicesForAutoSend t db).1) /\
  NoDup (id <$> (getAllInvoices db).2).
Proof.
  intros Hnd. unfold getAllInvoices, getInvoicesForAutoSend. cbn [fst snd].
  pose proof (sortNewestFirst_Permutation db) as Hp.
  split; [|split].
  - intros i. symmetry. by apply getInvoiceById_Permutation.
  - intros t. by apply List_filter_Permutation.
  - by rewrite Hp.
Qed.

Lemma getAllInvoices_keeps_lookups_witness :
  let a := sampleInvoice "1" "" false None false None in
  let b := sampleInvoice "2" "" false None false None in
  NoDup (id <$> (getAllInvoices [a; b]).2).
Proof.
  intros a b. apply (getAllInvoices_keeps_lookups [a; b]).
  apply (bool_decide_unpack _). vm_compute. exact I.
Defined.

Lemma filter_paid_insert (l : DB) k x y :
  l !! k = Some x -> paid x = false -> paid y = true ->
  length (List.filter paid (<[k := y]> l)) = S (length (List.filter paid l)).
Proof.
  revert k. induction l as [|z l IH]; intros [|k] Hk Hx Hy; simplify_eq/=.
  - by rewrite Hx, Hy.
  - destruct (paid z); simpl; by rewrite (IH k).
Qed.

Lemma filter_unpaid_insert (l : DB) k x y :
  l !! k = Some x -> paid x = true -> paid y = false ->
  S (length (List.filter paid (<[k := y]> l))) = length (List.filter paid l).
Proof.
  revert k. induction l as [|z l IH]; intros [|k] Hk Hx Hy; simplify_eq/=.
  - by rewrite Hx, Hy.
  - destruct (paid z); simpl; by rewrite <- (IH k).
Qed.

(** X13.  In [getStatistics], [paid + unpaid = total] and [unpaid] is not
    negative.  Marking an unpaid invoice paid moves one from [unpaid] to
    [paid]; marking a paid invoice unpaid moves one back; [total] stays. *)
Theorem getStatistics_counts now i (db : DB) k inv :
  getInvoiceById i db = Some (k, inv) ->
  let st := getStatistics db in
  (Z.of_nat (stat_paid st) + stat_unpaid st = Z.of_nat (stat_total st) /\
   0 <= stat_unpaid st) /\
  (paid inv = false ->
   let st' := getStatistics (markAsPaid now i db).2 in
   stat_total st' = stat_total st /\
   stat_paid st' = S (stat_paid st) /\
   stat_unpaid st' = stat_unpaid st - 1) /\
  (paid inv = true ->
   let st' := getStatistics (markAsUnpaid i db).2 in
   stat_total st' = stat_total st /\
   S (stat_paid st') = stat_paid st /\
   stat_unpaid st' = stat_unpaid st + 1).
Proof.
  intros E st. pose proof (getInvoiceById_Some _ _ _ _ E) as [Hk _].
  pose proof (lookup_lt_Some _ _ _ Hk) as Hlt.
  subst st. unfold getStatistics. cbn [stat_total stat_paid stat_unpaid].
  pose proof (filter_length paid db) as Hle.
  split; [lia|]. split.
  - intros Hp. unfold markAsPaid. rewrite E. cbn [snd]. cbv zeta.
    cbn [stat_total stat_paid stat_unpaid].
    rewrite length_insert, (filter_paid_insert db k inv) by done. lia.
  - intros Hp. unfold markAsUnpaid. rewrite E. cbn [snd]. cbv zeta.
    cbn [stat_total stat_paid stat_unpaid].
    pose proof (filter_unpaid_insert db k inv (set_payment false None inv)
                  Hk Hp eq_refl) as Hdown.
    rewrite length_insert. lia.
Qed.

Lemma getStatistics_counts_witness :
  let a := sampleInvoice "1" "" false None false None in
  let b := sampleInvoice "2" "" true (Some 5) false None in
  stat_paid (getStatistics (markAsPaid 9 "1" [a; b]).2)
  = S (stat_paid (getStatistics [a; b])).
Proof.
  intros a b.
  destruct (getStatistics_counts 9 "1" [a; b] 0%nat a eq_refl) as (_ & H & _).
  apply H. reflexivity.
Defined.

(** ** Expenses *)

Lemma getInvoiceById_insert_other j (l : DB) k x y :
  l !! k = Some x -> id y = id x -> id x ≠ j ->
  getInvoiceById j (<[k := y]> l) = getInvoiceById j l.
Proof.
  unfold getInvoiceById. revert k.
  induction l as [|z l IH]; intros [|k] Hk Hy Hx; simplify_eq/=.
  - rewrite Hy. by destruct (decide (id x = j)).
  - destruct (decide (id z = j)); [done|]. by rewrite (IH k).
Qed.

Lemma set_expenses_same inv : set_expenses (expenses inv) inv = inv.
Proof. by destruct inv. Qed.

(** X14.  On a stored invoice, [addExpense] returns the new expense and
    appends it to the expenses of that invoice; the total of its expenses
    grows by the amount given, the expenses of invoices with another id
    stay, and nothing but the expense list of that invoice changes in
    the store. *)
Theorem addExpense_appends now i data (db : DB) k inv :
  getInvoiceById i db = Some (k, inv) ->
  let r := addExpense now i data db in
  r.1 = Some (newExpense now data) /\
  getExpenses i r.2 = expenses inv ++ [newExpense now data] /\
  getTotalExpenses i r.2 = (getTotalExpenses i db + e_amount data)%Q /\
  (forall j, j ≠ i -> getExpenses j r.2 = getExpenses j db) /\
  (exists inv', r.2 = <[k := inv']> db /\ set_expenses (expenses inv) inv' = inv).
Proof.
  intros E r. pose proof (getInvoiceById_Some _ _ _ _ E) as [Hk Hid].
  subst r. unfold addExpense. rewrite E. cbn [fst snd].
  set (inv' := set_expenses (expenses inv ++ [newExpense now data]) inv).
  assert (E' : getInvoiceById i (<[k := inv']> db) = Some (k, inv'))
    by (by apply (getInvoiceById_insert _ _ _ inv)).
  split; [done|]. split; [|split; [|split]].
  - unfold getExpenses. by rewrite E'.
  - unfold getTotalExpenses, getExpenses. rewrite E', E.
    subst inv'. cbn [expenses set_expenses]. by rewrite fold_left_app.
  - intros j Hj. unfold getExpenses.
    rewrite (getInvoiceById_insert_other j db k inv inv'); [done|done|done|congruence].
  - exists inv'. split; [done|]. subst inv'. by destruct inv.
Qed.

Lemma addExpense_appends_witness :
  let inv := sampleInvoice "7" "" false None false None in
  let data := mkExpenseData None (3 # 2) (Some "fuel") None in
  getExpenses "7" (addExpense 100 "7" data [inv]).2 = [newExpense 100 data].
Proof.
  intros inv data.
  apply (addExpense_appends 100 "7" data [inv] 0%nat inv). reflexivity.
Defined.

(** X15.  When no expense of the invoice has the decimal string of the
    clock as its id, deleting the expense that [addExpense] just added
    returns that expense and gives back the store as it was. *)
Theorem addExpense_deleteExpense_roundtrip now i data (db : DB) k inv :
  getInvoiceById i db = Some (k, inv) ->
  Forall (λ e, expense_id e ≠ pretty now) (expenses inv) ->
  deleteExpense i (pretty now) (addExpense now i data db).2
  = (Some (newExpense now data), db).
Proof.
  intros E Hf. pose proof (getInvoiceById_Some _ _ _ _ E) as [Hk Hid].
  unfold addExpense. rewrite E. cbn [snd]. unfold deleteExpense.
  set (e := newExpense now data).
  rewrite (getInvoiceById_insert _ _ _ inv (set_expenses (expenses inv ++ [e]) inv) E Hid).
  cbn [expenses set_expenses].
  rewrite list_find_app_r by (by apply list_find_None). simpl.
  destruct (decide (pretty now = pretty now)) as [_|Hne]; [|done]. simpl.
  rewrite delete_take_drop, take_app_length', drop_ge, app_nil_r;
    [|rewrite length_app; simpl; lia|done].
  assert (Hs : set_expenses (expenses inv) (set_expenses (expenses inv ++ [e]) inv) = inv)
    by (by destruct inv).
  rewrite Hs, list_insert_insert_eq, list_insert_id by done. done.
Qed.

Lemma addExpense_deleteExpense_roundtrip_witness :
  let inv := sampleInvoice "7" "" false None false None in
  let data := mkExpenseData None (3 # 2) (Some "fuel") None in
  deleteExpense "7" (pretty 100) (addExpense 100 "7" data [inv]).2
  = (Some (newExpense 100 data), [inv]).
Proof.
  intros inv data.
  apply (addExpense_deleteExpense_roundtrip 100 "7" data [inv] 0%nat inv);
    [reflexivity | constructor].
Defined.

(** X16.  On a stored invoice, [deleteExpense] with an id that none of its
    expenses has returns [null] and changes nothing; otherwise it returns
    the first expense with that id and removes that one only, the
    expenses of invoices with another id staying. *)
Theorem deleteExpense_removes_first i eid (db : DB) k inv :
  getInvoiceById i db = Some (k, inv) ->
  (Forall (λ e, expense_id e ≠ eid) (expenses inv) /\
   deleteExpense i eid db = (None, db)) \/
  (exists l1 e l2,
     expenses inv = l1 ++ e :: l2 /\ expense_id e = eid /\
     Forall (λ e', expense_id e' ≠ eid) l1 /\
     (deleteExpense i eid db).1 = Some e /\
     getExpenses i (deleteExpense i eid db).2 = l1 ++ l2 /\
     forall j, j ≠ i ->
       getExpenses j (deleteExpense i eid db).2 = getExpenses j db).
Proof.
  intros E. pose proof (getInvoiceById_Some _ _ _ _ E) as [Hk Hid].
  unfold deleteExpense. rewrite E.
  destruct (list_find _ (expenses inv)) as [[n e]|] eqn:F.
  - right. apply list_find_Some in F as (Hn & He & Hleast).
    pose proof (lookup_lt_Some _ _ _ Hn) as Hlt.
    exists (take n (expenses inv)), e, (drop (S n) (expenses inv)).
    split; [by rewrite take_drop_middle|]. split; [done|]. split.
    { apply Forall_lookup. intros j y Hj.
      apply lookup_take_Some in Hj as [Hj Hjn]. by apply (Hleast j). }
    cbn [fst snd]. split; [done|].
    set (inv' := set_expenses (delete n (expenses inv)) inv). split.
    + unfold getExpenses.
      rewrite (getInvoiceById_insert _ _ _ inv inv' E Hid).
      subst inv'. cbn [expenses set_expenses]. by rewrite delete_take_drop.
    + intros j Hj. unfold getExpenses.
      rewrite (getInvoiceById_insert_other j db k inv inv'); [done|done|done|congruence].
  - left. split; [|done]. by apply list_find_None in F.
Qed.

Lemma deleteExpense_removes_first_witness :
  let inv := sampleInvoice "7" "" false None false None in
  (Forall (λ e, expense_id e ≠ "x") (expenses inv) /\
   deleteExpense "7" "x" [inv] = (None, [inv])) \/
  (exists l1 e l2,
     expenses inv = l1 ++ e :: l2 /\ expense_id e = "x" /\
     Forall (λ e', expense_id e' ≠ "x") l1 /\
     (deleteExpense "7" "x" [inv]).1 = Some e /\
     getExpenses "7" (deleteExpense "7" "x" [inv]).2 = l1 ++ l2 /\
     forall j, j ≠ "7" ->
       getExpenses j (deleteExpense "7" "x" [inv]).2 = getExpenses j [inv]).
Proof.
  intros inv. apply (deleteExpense_removes_first "7" "x" [inv] 0%nat inv). reflexivity.
Defined.

(** ** The recipient and the PDF file *)

Lemma digitsOf_idem s : digitsOf (digitsOf s) = digitsOf s.
Proof.
  induction s as [|c r IH]; simpl; [done|].
  destruct (isDigit c) eqn:E; simpl; [|done]. by rewrite E, IH.
Qed.

Lemma digitsOf_head s c r :
  digitsOf s = String c r -> isDigit c = true /\ digitsOf r = r.
Proof.
  induction s as [|a s' IH]; simpl; [done|].
  destruct (isDigit a) eqn:E; [|done].
  intros [= <- <-]. split; [done|apply digitsOf_idem].
Qed.

Lemma digitsOf_cons c r :
  isDigit c = true -> digitsOf r = r -> digitsOf (String c r) = String c r.
Proof. intros Hc Hr. cbn [digitsOf]. by rewrite Hc, Hr. Qed.

(** X18.  The recipient number that [sendInvoice] computes from
    [clientPhone] consists of digits only and starts with 7; normalising
    it again changes nothing, and a string of digits that starts with 7
    is taken as it is. *)
Theorem normalizePhone_shape p :
  digitsOf (normalizePhone p) = normalizePhone p /\
  startsWithChar "7" (normalizePhone p) = true /\
  normalizePhone (normalizePhone p) = normalizePhone p /\
  (digitsOf p = p -> startsWithChar "7" p = true -> normalizePhone p = p).
Proof.
  assert (Hfix : forall q, digitsOf q = q -> startsWithChar "7" q = true ->
                   normalizePhone q = q).
  { intros q Hq H7. unfold normalizePhone. rewrite Hq.
    destruct q as [|c r]; [done|]. simpl in H7.
    apply Ascii.eqb_eq in H7 as ->. done. }
  assert (Hd : digitsOf (normalizePhone p) = normalizePhone p).
  { unfold normalizePhone.
    destruct (digitsOf p) as [|c r] eqn:Ep; [done|].
    apply digitsOf_head in Ep as [Ec Hr]. cbn [startsWithChar replaceFirstBy7].
    destruct (Ascii.eqb_spec c "8") as [->|]; cbn [startsWithChar negb].
    - change (Ascii.eqb "7" "7") with true. cbn [negb]. by apply digitsOf_cons.
    - destruct (Ascii.eqb_spec c "7") as [->|]; cbn [negb].
      + by apply digitsOf_cons.
      + apply digitsOf_cons; [done|]. by apply digitsOf_cons. }
  assert (H7 : startsWithChar "7" (normalizePhone p) = true).
  { unfold normalizePhone. destruct (digitsOf p) as [|c r]; [done|]. simpl.
    destruct (Ascii.eqb_spec c "8") as [->|]; simpl; [done|].
    by destruct (Ascii.eqb_spec c "7") as [->|]. }
  split; [done|]. split; [done|]. split; [by apply Hfix|apply Hfix].
Qed.

Lemma stripPrefix_app p s : stripPrefix p (p +:+ s) = Some s.
Proof.
  induction p as [|c p IH]; simpl; [by destruct s|].
  by rewrite Ascii.eqb_refl.
Qed.

Lemma spanDigits_app num t :
  digitsOf num = num -> startsWithChar "_" t = true ->
  spanDigits (num +:+ t) = (num, t).
Proof.
  intros Hd Ht. induction num as [|c r IH]; simpl.
  - destruct t as [|a t']; [done|]. simpl in Ht.
    apply Ascii.eqb_eq in Ht as ->. done.
  - apply digitsOf_head in Hd as [Hc Hr]. by rewrite Hc, (IH Hr).
Qed.

Lemma endsWith_refl s : endsWith s s = true.
Proof.
  destruct s; [reflexivity|]. cbn [endsWith]. rewrite String.eqb_refl. reflexivity.
Qed.

Lemma endsWith_app a suffix : endsWith (a +:+ suffix) suffix = true.
Proof.
  induction a as [|c a IH]; simpl.
  - apply endsWith_refl.
  - rewrite IH. apply orb_true_r.
Qed.

Lemma endsWith_prepend a t suffix :
  endsWith t suffix = true -> endsWith (a +:+ t) suffix = true.
Proof.
  intros H. induction a as [|c a IH]; simpl; [done|].
  rewrite IH. apply orb_true_r.
Qed.



Lemma capturedNumber_generated prefix num rest :
  digitsOf num = num -> num ≠ "" ->
  capturedNumber prefix (prefix +:+ num +:+ "_" +:+ rest) = Some num.
Proof.
  intros Hd Hne. unfold capturedNumber.
  rewrite stripPrefix_app, spanDigits_app by done.
  by destruct num.
Qed.

(** A name in the new format is a file of its number and of no other. *)
Lemma isInvoiceFile_new_format num tail :
  digitsOf num = num -> num ≠ "" -> endsWith tail ".pdf" = true ->
  let f := "Счет_" +:+ num +:+ "_" +:+ tail in
  isInvoiceFile num f = true /\
  forall other, other ≠ num -> isInvoiceFile other f = false.
Proof.
  intros Hd Hne Htail f.
  assert (Hends : endsWith f ".pdf" = true).
  { subst f. by do 3 apply endsWith_prepend. }
  assert (Hcap : capturedNumber "Счет_" f = Some num)
    by (by apply capturedNumber_generated).
  assert (Hold : forall s, capturedNumber "invoice_" ("Счет_" +:+ s) = None) by done.
  split.
  - unfold isInvoiceFile. rewrite Hends, Hcap. cbn [negb].
    by rewrite bool_decide_eq_true_2.
  - intros other Hother. unfold isInvoiceFile. rewrite Hends, Hcap. cbn [negb].
    rewrite bool_decide_eq_false_2 by congruence.
    subst f. rewrite Hold. by rewrite bool_decide_eq_false_2.
Qed.

(** X19.  A file named [Счет_<num>_<rest>.pdf], the form the routes
    generate, with [num] a non-empty string of digits, is accepted by
    [sendInvoice] as the PDF of the invoice number [num] and of no other
    number; a directory listing that holds it always yields a file for
    [num]. *)
Theorem generated_filename_is_found num rest :
  digitsOf num = num -> num ≠ "" ->
  let f := "Счет_" +:+ num +:+ "_" +:+ rest +:+ ".pdf" in
  isInvoiceFile num f = true /\
  (forall other, other ≠ num -> isInvoiceFile other f = false) /\
  (forall files, f ∈ files -> findPdf num files ≠ None).
Proof.
  intros Hd Hne f.
  destruct (isInvoiceFile_new_format num (rest +:+ ".pdf") Hd Hne
              (endsWith_app rest ".pdf")) as [Hyes Hno].
  fold f in Hyes, Hno. split; [done|]. split; [done|].
  intros files Hin Hnone. unfold findPdf in Hnone.
  apply List.find_none with (x := f) in Hnone; [congruence|].
  by apply list_elem_of_In.
Qed.

Lemma generated_filename_is_found_witness :
  isInvoiceFile "017" ("Счет_" +:+ "017" +:+ "_" +:+ "Salat_2025-11-13" +:+ ".pdf")
  = true.
Proof.
  apply (generated_filename_is_found "017" "Salat_2025-11-13"); [reflexivity|discriminate].
Defined.



(** ** The invoice counter *)

Lemma isDigit_pretty_N_char n : isDigit (pretty_N_char n) = true.
Proof. unfold pretty_N_char. by repeat case_match. Qed.

Lemma pretty_N_go_digits x : forall s,
  digitsOf s = s -> digitsOf (pretty_N_go x s) = pretty_N_go x s.
Proof.
  induction (N.lt_wf_0 x) as [x _ IH]; intros s Hs.
  assert (x = 0 \/ 0 < x)%N as [->|Hpos] by lia; [by rewrite pretty_N_go_0|].
  rewrite pretty_N_go_step by done. apply IH; [by apply N.div_lt|].
  apply digitsOf_cons; [apply isDigit_pretty_N_char|done].
Qed.

Lemma pretty_N_go_head x : forall s,
  (0 < x)%N -> exists c r, pretty_N_go x s = String c r /\ c ≠ "0"%char.
Proof.
  induction (N.lt_wf_0 x) as [x _ IH]; intros s Hpos.
  rewrite pretty_N_go_step by done.
  assert (x < 10 \/ 10 <= x)%N as [Hlt|Hge] by lia.
  - rewrite N.div_small, pretty_N_go_0 by done. eexists _, _. split; [done|].
    rewrite N.mod_small by done.
    assert (x = 1 ∨ x = 2 ∨ x = 3 ∨ x = 4 ∨ x = 5 ∨ x = 6
            ∨ x = 7 ∨ x = 8 ∨ x = 9)%N
      as [->|[->|[->|[->|[->|[->|[->|[->| ->]]]]]]]] by lia; done.
  - apply IH; [by apply N.div_lt|]. apply N.div_str_pos. lia.
Qed.

Lemma pretty_Z_digits z :
  0 <= z -> digitsOf (pretty z) = pretty z /\ pretty z ≠ "" /\
  (0 < z -> exists c r, pretty z = String c r /\ c ≠ "0"%char).
Proof.
  destruct z as [|p|p]; [done| |lia]. intros _.
  change (pretty (Z.pos p)) with (pretty_N_go (N.pos p) "").
  destruct (pretty_N_go_head (N.pos p) "" ltac:(lia)) as (c & r & Hcr & Hc).
  split; [by apply pretty_N_go_digits|]. split; [by rewrite Hcr|]. eauto.
Qed.

Lemma zeros_digits k s : digitsOf s = s -> digitsOf (zeros k s) = zeros k s.
Proof. intros Hs. induction k; simpl; [done|]. by rewrite IHk. Qed.

Lemma zeros_nonempty k s : s ≠ "" -> zeros k s ≠ "".
Proof. by destruct k. Qed.

Lemma zeros_inj k1 k2 c1 r1 c2 r2 :
  c1 ≠ "0"%char -> c2 ≠ "0"%char ->
  zeros k1 (String c1 r1) = zeros k2 (String c2 r2) ->
  String c1 r1 = String c2 r2.
Proof.
  intros H1 H2. revert k2. induction k1 as [|k1 IH]; intros [|k2]; simpl.
  - done.
  - by intros [= -> _].
  - by intros [= <- _].
  - intros [= H]. by apply (IH k2).
Qed.

(** X17.  From a counter [c] with [0 <= c < 2^53], the range in which
    the number that holds the counter is incremented exactly,
    [getNextInvoiceNumber] advances the counter by one and returns a
    string of decimal digits of at least three characters; distinct
    counters of that range give distinct numbers. *)
Theorem getNextInvoiceNumber_fresh c :
  0 <= c < 2 ^ 53 ->
  (getNextInvoiceNumber c).2 = c + 1 /\
  digitsOf (getNextInvoiceNumber c).1 = (getNextInvoiceNumber c).1 /\
  (getNextInvoiceNumber c).1 ≠ "" /\
  (3 <= String.length (getNextInvoiceNumber c).1)%nat /\
  forall c', 0 <= c' < 2 ^ 53 ->
    (getNextInvoiceNumber c').1 = (getNextInvoiceNumber c).1 -> c' = c.
Proof.
  intros [Hc _]. unfold getNextInvoiceNumber, padStart. cbn [fst snd].
  destruct (pretty_Z_digits (c + 1) ltac:(lia)) as (Hd & Hne & Hhead).
  destruct (Hhead ltac:(lia)) as (a & r & Hp & Ha).
  split; [done|]. split; [by apply zeros_digits|].
  split; [by apply zeros_nonempty|]. split.
  - assert (Hlen : forall k s, String.length (zeros k s) = (k + String.length s)%nat).
    { intros k s. induction k; simpl; [done|]. by rewrite IHk. }
    rewrite Hlen. lia.
  - intros c' [Hc' _].
    destruct (pretty_Z_digits (c' + 1) ltac:(lia)) as (_ & _ & Hhead').
    destruct (Hhead' ltac:(lia)) as (a' & r' & Hp' & Ha').
    rewrite Hp, Hp'. intros Heq%zeros_inj; [|done..].
    rewrite <- Hp, <- Hp' in Heq. apply (inj pretty) in Heq. lia.
Qed.

Lemma getNextInvoiceNumber_fresh_witness :
  (3 <= String.length (getNextInvoiceNumber 6).1)%nat.
Proof. apply (getNextInvoiceNumber_fresh 6). split; [lia | reflexivity]. Defined.


(** ** The routes *)


Section MoreRoutes.
Variable tza : Z.
Variable san : string -> string.




(** X26.  For an id that no stored invoice has, the operations of the store
    return [null] (an empty list, a zero total) and leave the store as it
    is, and the payment, duplicate, auto-send and delete routes answer
    404 with store and counter unchanged: no number is used up. *)
Theorem unknown_id_changes_nothing now now' pdfOk fileOk i p enabled next data eid st :
  Forall (λ y, id y ≠ i) (st_db st) ->
  let db := st_db st in
  (markAsPaid now i db = (None, db) /\
   markAsUnpaid i db = (None, db) /\
   setAutoSend i enabled next db = (None, db) /\
   updateNextSendDate tza now i db = (Normal None, db) /\
   deleteInvoice i db = (None, db) /\
   addExpense now i data db = (None, db) /\
   deleteExpense i eid db = (None, db) /\
   getExpenses i db = [] /\
   getTotalExpenses i db = 0%Q) /\
  (putPayment tza san now now' pdfOk i p st = (JsonError 404 "Счет не найден", st) /\
   postDuplicate san now now' pdfOk i st = (JsonError 404 "Счет не найден", st) /\
   postAutoSend i enabled next st = (JsonError 404 "Счет не найден", st) /\
   deleteInvoiceRoute fileOk i st = (JsonError 404 "Счет не найден", st)).
Proof.
  intros H%getInvoiceById_None. cbv zeta.
  unfold putPayment, postDuplicate, postAutoSend, deleteInvoiceRoute,
    markAsPaid, markAsUnpaid, setAutoSend, updateNextSendDate,
    deleteInvoice, addExpense, deleteExpense, getTotalExpenses, getExpenses.
  rewrite H. destruct st. done.
Qed.

(** X27.  For a stored invoice, in a store with pairwise distinct ids, the
    delete route removes the record whether or not the removal of the
    file goes through: it answers 200 in the first case and 500 in the
    second, the counter stays, the id is not found afterwards and the
    payment route then answers 404 for it. *)
Theorem deleteInvoiceRoute_removes_record fileOk i st k inv :
  getInvoiceById i (st_db st) = Some (k, inv) ->
  NoDup (id <$> st_db st) ->
  let r := deleteInvoiceRoute fileOk i st in
  (if fileOk then exists body, r.1 = Json 200 body
   else exists msg, r.1 = JsonError 500 msg) /\
  st_db r.2 = delete k (st_db st) /\
  st_counter r.2 = st_counter st /\
  getInvoiceById i (st_db r.2) = None /\
  forall now now' pdfOk p,
    (putPayment tza san now now' pdfOk i p r.2).1 = JsonError 404 "Счет не найден".
Proof.
  intros E Hnd r. subst r.
  destruct (lookup_after_deleteInvoice i (st_db st) Hnd) as [Hgone _].
  unfold deleteInvoiceRoute. unfold deleteInvoice in *. rewrite E in *.
  cbn [fst snd st_db st_counter] in *.
  split; [destruct fileOk; by eexists|]. split; [done|]. split; [done|].
  split; [done|]. intros now now' pdfOk p. unfold putPayment.
  cbn [st_db]. by rewrite Hgone.
Qed.
End MoreRoutes.




Lemma unknown_id_changes_nothing_witness :
  let inv := sampleInvoice "7" "79001112233" false None true (Some 5000) in
  deleteInvoiceRoute true "8" (mkState [inv] 41)
  = (JsonError 404 "Счет не найден", mkState [inv] 41).
Proof.
  intros inv.
  destruct (unknown_id_changes_nothing 0 (λ s, s) 0 0 true true "8" true true None
              (mkExpenseData None 0 None None) "" (mkState [inv] 41)) as [_ H].
  - repeat constructor. vm_compute. discriminate.
  - apply H.
Defined.

Lemma deleteInvoiceRoute_removes_record_witness :
  let a := sampleInvoice "1" "" false None false None in
  let b := sampleInvoice "2" "" false None false None in
  st_db (deleteInvoiceRoute false "1" (mkState [a; b] 41)).2 = [b].
Proof.
  intros a b.
  destruct (deleteInvoiceRoute_removes_record 0 (λ s, s) false "1"
              (mkState [a; b] 41) 0%nat a eq_refl) as (_ & H & _).
  - apply (bool_decide_unpack _). vm_compute. exact I.
  - exact H.
Defined.

(** ** What the scheduler may change *)

Lemma scheduleOnly_refl a : scheduleOnly a a.
Proof.
  split; [by destruct a|]. destruct (nextSendDate a); [lia|done].
Qed.

Lemma scheduleOnly_trans a b c :
  scheduleOnly a b -> scheduleOnly b c -> scheduleOnly a c.
Proof.
  intros [H1 H1'] [H2 H2']. split.
  - unfold set_lastSentAt, set_nextSendDate in *.
    destruct a, b, c; simpl in *.
    injection H1; injection H2; intros; subst; reflexivity.
  - destruct (nextSendDate a), (nextSendDate b), (nextSendDate c); try done. lia.
Qed.

Lemma Forall2_scheduleOnly_refl (d : DB) : Forall2 scheduleOnly d d.
Proof. apply Forall_Forall2_diag, Forall_forall. intros. apply scheduleOnly_refl. Qed.

Lemma updateNextSendDate_scheduleOnly tza now i (d : DB) :
  Forall2 scheduleOnly d (updateNextSendDate tza now i d).2.
Proof.
  unfold updateNextSendDate.
  destruct (getInvoiceById i d) as [[k inv]|] eqn:E;
    [|apply Forall2_scheduleOnly_refl].
  destruct (nextSendDate inv) as [cur|] eqn:Hc; [|apply Forall2_scheduleOnly_refl].
  destruct (plusOneMonth tza cur) as [shifted|] eqn:Hp;
    [|apply Forall2_scheduleOnly_refl].
  cbn [snd]. apply getInvoiceById_Some in E as [Hk _].
  rewrite <- (list_insert_id d k inv Hk) at 1.
  apply Forall2_insert; [apply Forall2_scheduleOnly_refl|].
  pose proof (plusOneMonth_bounds _ _ _ Hp). split.
  - destruct inv; simpl in *. by subst.
  - rewrite Hc. simpl. unfold msPerDay in *. lia.
Qed.

Section SchedulerFrame.
Variable tza : Z.

Lemma afterSend_scheduleOnly t k r s :
  Forall2 scheduleOnly (db s) (db (afterSend tza t k r s)).
Proof.
  unfold afterSend. destruct (db s !! k) as [inv|]; [|apply Forall2_scheduleOnly_refl].
  destruct (sendInvoice inv r); [|apply Forall2_scheduleOnly_refl].
  pose proof (updateNextSendDate_scheduleOnly tza t (id inv) (db s)) as H.
  by destruct (updateNextSendDate _ _ _ _) as [[?|?] ?].
Qed.

Lemma step_scheduleOnly s i : Forall2 scheduleOnly (db s) (db (step tza s i)).
Proof.
  destruct i as [now|j now r]; simpl.
  - unfold invoke. destruct (isProcessing s); [apply Forall2_scheduleOnly_refl|].
    simpl. destruct (dueRefs now (db s)); apply Forall2_scheduleOnly_refl.
  - unfold settle. destruct (passes s !! j) as [[k rest|k rest]|];
      [|destruct r; apply Forall2_scheduleOnly_refl|apply Forall2_scheduleOnly_refl].
    destruct rest; simpl; apply afterSend_scheduleOnly.
Qed.

(** X21.  Whatever the event loop delivers, a run of the scheduler changes
    nothing in the store but [nextSendDate] and [lastSentAt]: the store
    keeps its length, every invoice keeps all its other fields (its id,
    [autoSendEnabled], [paid] and [clientPhone] among them), and a
    [nextSendDate] that was set stays set and never moves backwards. *)
Theorem scheduler_only_reschedules s (ins : list Input) :
  let s' := run tza s ins in
  Forall2 scheduleOnly (db s) (db s') /\
  length (db s') = length (db s) /\
  id <$> db s' = id <$> db s /\
  autoSendEnabled <$> db s' = autoSendEnabled <$> db s /\
  paid <$> db s' = paid <$> db s /\
  clientPhone <$> db s' = clientPhone <$> db s.
Proof.
  cbv zeta.
  assert (H : Forall2 scheduleOnly (db s) (db (run tza s ins))).
  { revert s. induction ins as [|i ins IH]; intros s; [apply Forall2_scheduleOnly_refl|].
    simpl. eapply Forall2_trans; [|apply step_scheduleOnly|apply IH].
    intros a b c. apply scheduleOnly_trans. }
  assert (Hf : forall {B} (f : Invoice -> B),
             (forall a b, scheduleOnly a b -> f b = f a) ->
             f <$> db (run tza s ins) = f <$> db s).
  { intros B f Hfab. induction H as [|a b l l' Hab _ IH]; [done|].
    rewrite !fmap_cons, IH. f_equal. by apply Hfab. }
  split; [done|]. split; [symmetry; by eapply Forall2_length|].
  repeat split; apply Hf; intros a b [Hab _]; rewrite <- Hab; by destruct b.
Qed.
End SchedulerFrame.

Lemma dueAt_later now now' inv : now <= now' -> dueAt now inv = true -> dueAt now' inv = true.
Proof.
  intros Hle (Ha & d & Hd & Hdn)%dueAt_true. apply dueAt_true.
  split; [done|]. exists d. split; [done|lia].
Qed.

(** X22.  An invoice of the batch whose send fails is left by the pass as
    it was, so that it is due at every later clock reading, and the next
    call of [checkAndSend] after the pass starts a pass with that invoice
    in its batch. *)
Theorem failed_send_is_retried tza now store os n k t r msg inv :
  NoDup (id <$> store) ->
  length os = length (getInvoicesForAutoSend now store).1 ->
  dueRefs now store !! n = Some k -> os !! n = Some (t, r) ->
  store !! k = Some inv -> sendInvoice inv r = Rejected msg ->
  let s := run tza (init store) (Invoke now :: passInputs os) in
  db s !! k = Some inv /\
  forall now', now <= now' ->
    k ∈ dueRefs now' (db s) /\
    exists k0 rest,
      passes (step tza s (Invoke now')) = [AwaitSend k0 rest] /\ k ∈ k0 :: rest.
Proof.
  intros Hids Hlen Hn Ho Hk Hrej. cbv zeta.
  pose proof (dueRefs_objects now store) as Hobj.
  pose proof (refsFrom_NoDup (dueAt now) 0 store) as Hnd.
  pose proof (dueRefs_valid now store) as Hval.
  assert (Hdue : dueAt now inv = true).
  { apply list_elem_of_lookup_2, dueRefs_elem in Hn as (x & Hx & Hd). congruence. }
  fold (dueRefs now store) in Hnd.
  change (run tza (init store) (Invoke now :: passInputs os))
    with (run tza (invoke now (init store)) (passInputs os)).
  unfold invoke. cbn [isProcessing init setProcessing db].
  assert (Hlb : length (dueRefs now store) = length os).
  { apply (f_equal length) in Hobj. rewrite !length_fmap in Hobj. lia. }
  destruct (dueRefs now store) as [|k1 rest] eqn:Eb; [done|].
  set (s0 := setPasses _ _).
  destruct (pass_from_send tza rest k1 os s0) as (P1 & P2 & _ & _ & _ & _ & P7);
    [done | simpl in Hlb; lia | done | done | done |].
  specialize (P7 n k t r inv Hn Ho Hk). unfold sendOutcome in P7.
  rewrite Hrej in P7. split; [done|].
  intros now' Hle.
  assert (Hin : k ∈ dueRefs now' (db (run tza s0 (passInputs os)))).
  { apply dueRefs_elem. exists inv. split; [done|]. by apply (dueAt_later now). }
  split; [done|]. cbn [step]. unfold invoke. rewrite P2.
  cbn [setProcessing db passes addLog setPasses].
  destruct (dueRefs now' _) as [|k0 rest0]; [by apply elem_of_nil in Hin|].
  exists k0, rest0. cbn [passes setPasses addLog setProcessing]. by rewrite P1.
Qed.

Lemma failed_send_is_retried_witness :
  let now := 1738400000000 in
  let a := sampleInvoice "1" "79001112233" false None true (Some (now - 1000)) in
  let b := sampleInvoice "2" "89001112233" false None true (Some now) in
  let os := [(now + 10, Fulfilled); (now + 20, Rejected "not ready")] in
  db (run 10800000 (init [a; b]) (Invoke now :: passInputs os)) !! 1%nat = Some b.
Proof.
  intros now a b os.
  apply (failed_send_is_retried 10800000 now [a; b] os 1%nat 1%nat (now + 20)
           (Rejected "not ready") "not ready" b);
    [apply (bool_decide_unpack _); vm_compute; exact I | reflexivity..].
Defined.

(** ** Expense categories *)

Section CategoryProperties.
Variable toLowerCase : string -> string.
Variable trim : string -> string.

(** X28.  When the names of the categories are pairwise distinct up to case
    and the name given is already trimmed, a successful [addCategory]
    appends one category with that name, which is not empty, and the
    names stay pairwise distinct up to case. *)
Theorem addCategory_keeps_names_distinct now data (cats : list Category) c cats' :
  distinctNames toLowerCase cats ->
  (forall name, c_name data = Some name -> trim name = name) ->
  addCategory toLowerCase trim now data cats = (Normal c, cats') ->
  cats' = cats ++ [c] /\
  c_name data = Some (cat_name c) /\ cat_name c ≠ "" /\
  distinctNames toLowerCase cats'.
Proof.
  intros Hnd Htrim. unfold addCategory, truthy_string.
  destruct (c_name data) as [name|] eqn:En; [|discriminate].
  destruct (decide (name = "")) as [|Hne]; [discriminate|].
  destruct (list_find _ cats) as [?|] eqn:F; [discriminate|].
  intros [= <- <-]. cbn [cat_name]. rewrite (Htrim name eq_refl).
  split; [done|]. split; [done|]. split; [done|].
  unfold distinctNames. rewrite fmap_app. apply NoDup_app.
  split; [done|]. split; [|apply NoDup_singleton].
  intros x Hx [->|[]%elem_of_nil]%elem_of_cons. cbn [cat_name] in Hx.
  apply list_elem_of_fmap in Hx as (cat & Hcat & Hin).
  apply list_find_None in F. rewrite Forall_forall in F. by apply (F cat).
Qed.

(** X29.  [addCategory] compares the name as it was given and stores it
    trimmed: when the trimmed name is the name of a stored category while
    the name as given differs up to case from every stored name, the call
    succeeds and the list then holds two categories with the same name. *)
Theorem addCategory_untrimmed_name_duplicates now data (cats : list Category)
    name cat :
  c_name data = Some name -> name ≠ "" ->
  cat ∈ cats -> cat_name cat = trim name ->
  Forall (λ x, toLowerCase (cat_name x) ≠ toLowerCase name) cats ->
  exists c,
    addCategory toLowerCase trim now data cats = (Normal c, cats ++ [c]) /\
    cat_name c = cat_name cat /\
    ¬ NoDup (cat_name <$> cats ++ [c]) /\
    ¬ distinctNames toLowerCase (cats ++ [c]).
Proof.
  intros En Hne Hin Hname Hf. unfold addCategory, truthy_string. rewrite En.
  destruct (decide (name = "")) as [|_]; [done|].
  assert (F : list_find (λ x, toLowerCase (cat_name x) = toLowerCase name) cats = None)
    by (by apply list_find_None).
  rewrite F. eexists. split; [done|].
  cbn [cat_name]. split; [done|].
  assert (Hdup : forall {B} (f : Category -> B) c,
            f c = f cat -> ¬ NoDup (f <$> cats ++ [c])).
  { intros B f c Hfc Hnd. rewrite fmap_app in Hnd.
    apply NoDup_app in Hnd as (_ & Hdisj & _). apply (Hdisj (f cat)).
    - by apply list_elem_of_fmap_2.
    - rewrite <- Hfc. by left. }
  split; [by apply Hdup|]. unfold distinctNames. apply Hdup.
  cbn [cat_name]. by rewrite Hname.
Qed.

(** X30.  When no stored category has the decimal string of the clock as
    its id, the category that [addCategory] returns is found under its id
    at the end of the list, and [deleteCategory] with that id returns it
    and gives back the list as it was; [deleteCategory] with an id that no
    category has throws and changes nothing. *)
Theorem addCategory_deleteCategory_roundtrip now data (cats : list Category) c cats' :
  Forall (λ x, cat_id x ≠ pretty now) cats ->
  addCategory toLowerCase trim now data cats = (Normal c, cats') ->
  getCategoryById (cat_id c) cats' = Some (length cats, c) /\
  deleteCategory (cat_id c) cats' = (Normal c, cats) /\
  forall i, Forall (λ x, cat_id x ≠ i) cats' ->
    exists msg, deleteCategory i cats' = (Throw msg, cats').
Proof.
  intros Hf. unfold addCategory.
  destruct (truthy_string (c_name data)) as [name|]; [|discriminate].
  destruct (list_find _ cats) as [?|]; [discriminate|].
  intros [= <- <-]. cbn [cat_id].
  assert (Hfind : list_find (λ cat, cat_id cat = pretty now)
                    (cats ++ [mkCategory (pretty now) (trim name)
                                (default "" (c_description data)) now])
                  = Some (length cats, mkCategory (pretty now) (trim name)
                                (default "" (c_description data)) now)).
  { rewrite list_find_app_r by (by apply list_find_None). simpl.
    destruct (decide (pretty now = pretty now)); [|done].
    simpl. repeat f_equal; lia. }
  split; [exact Hfind|]. split.
  - unfold deleteCategory. rewrite Hfind.
    by rewrite delete_take_drop, take_app_length', drop_ge, app_nil_r
      by (rewrite ?length_app; simpl; lia).
  - intros i Hi. unfold deleteCategory.
    assert (F : list_find (λ x, cat_id x = i)
                  (cats ++ [mkCategory (pretty now) (trim name)
                              (default "" (c_description data)) now]) = None)
      by (by apply list_find_None).
    rewrite F. by eexists.
Qed.
End CategoryProperties.

Lemma addCategory_keeps_names_distinct_witness :
  let cats := [mkCategory "1" "Fuel" "" 0] in
  let data := mkCategoryData (Some "Rent") None in
  distinctNames (λ s, s) (cats ++ [mkCategory "100" "Rent" "" 100]).
Proof.
  intros cats data.
  destruct (addCategory_keeps_names_distinct (λ s, s) (λ s, s) 100 data cats
              (mkCategory "100" "Rent" "" 100)
              (cats ++ [mkCategory "100" "Rent" "" 100])) as (_ & _ & _ & H).
  - apply (bool_decide_unpack _). vm_compute. exact I.
  - intros name [= <-]. reflexivity.
  - reflexivity.
  - exact H.
Defined.

Lemma addCategory_untrimmed_name_duplicates_witness :
  let dropSpace := λ s, match s with String " " r => r | _ => s end in
  let cats := [mkCategory "1" "Fuel" "" 0] in
  exists c,
    addCategory (λ s, s) dropSpace 100 (mkCategoryData (Some " Fuel") None) cats
    = (Normal c, cats ++ [c]) /\ cat_name c = "Fuel".
Proof.
  intros dropSpace cats.
  destruct (addCategory_untrimmed_name_duplicates (λ s, s) dropSpace 100
              (mkCategoryData (Some " Fuel") None) cats " Fuel"
              (mkCategory "1" "Fuel" "" 0)) as (c & H1 & H2 & _).
  - reflexivity.
  - discriminate.
  - by left.
  - reflexivity.
  - repeat constructor. vm_compute. discriminate.
  - exists c. split; [exact H1 | exact H2].
Defined.

Lemma addCategory_deleteCategory_roundtrip_witness :
  let cats := [mkCategory "1" "Fuel" "" 0] in
  let c := mkCategory "100" "Rent" "" 100 in
  deleteCategory (cat_id c) (cats ++ [c]) = (Normal c, cats).
Proof.
  intros cats c.
  apply (addCategory_deleteCategory_roundtrip (λ s, s) (λ s, s) 100
           (mkCategoryData (Some "Rent") None) cats c (cats ++ [c])).
  - repeat constructor. vm_compute. discriminate.
  - reflexivity.
Defined.
